(** * erfclient: the token lifecycle manager of client.go

    A shallow embedding of [client.go]: the [client] struct, [readFile],
    [persistNewToken], [Token] and [newWithClock], over an explicit model of
    what the code touches outside itself: the file system, the injected
    clock, the UUID generator and the JWT codec of erfcommon / jwt-go. *)

From Stdlib Require Import ZArith Lia.
From Stdlib Require Import Strings.Byte.
From stdpp Require Import gmap strings.

Local Open Scope Z_scope.

(** ** Go's int64 and uint *)

Module Int64.
Definition min : Z := - 2 ^ 63.
Definition max : Z := 2 ^ 63 - 1.

(** The value an int64 holds after an operation whose exact result is [z]
    (two's complement wrap-around). *)
Definition wrap (z : Z) : Z := (z + 2 ^ 63) mod 2 ^ 64 - 2 ^ 63.

(** [a + b] on int64. *)
Definition add (a b : Z) : Z := wrap (a + b).

(** The conversion [int64(u)] of a [uint]. *)
Definition of_uint (u : N) : Z := wrap (Z.of_N u).

Definition in_range (z : Z) : Prop := min <= z <= max.
End Int64.

(** ** Errors

    Go's [error] values, as far as the code tells them apart: [os.IsNotExist]
    recognises the "no such file" error of the operating system, and
    github.com/pkg/errors builds new errors and annotates causes. *)

Inductive error : Type :=
| ErrNotExist
| ErrOS (msg : string)
| errors_New (msg : string)
| errors_Wrap (cause : error) (msg : string)
| errors_WithMessage (cause : error) (msg : string).

Definition os_IsNotExist (err : error) : bool :=
  match err with
  | ErrNotExist => true
  | _ => false
  end.

(** [err.Error()]. *)
Fixpoint Error (err : error) : string :=
  match err with
  | ErrNotExist => "no such file or directory"
  | ErrOS msg => msg
  | errors_New msg => msg
  | errors_Wrap cause msg => msg +:+ ": " +:+ Error cause
  | errors_WithMessage cause msg => msg +:+ ": " +:+ Error cause
  end.

(** The outcome of a Go call that returns [(A, error)]: a value, an error,
    or a run-time panic (a nil pointer dereference). *)
Inductive res (A : Type) : Type :=
| Ret (a : A)
| Fail (err : error)
| Panic.
Arguments Ret {A} a.
Arguments Fail {A} err.
Arguments Panic {A}.

(** ** erfcommon's claims and the codec

    [erf.ErfClaims] has pointer fields; [None] is the nil pointer. *)

Record ErfClaims : Type := mkClaims {
  IssuedAt : option Z;
  ExpiresAt : option Z;
  Subject : option string;
  SequenceNo : option Z;
  Previous : option string
}.

Definition set_SequenceNo (v : option Z) (c : ErfClaims) : ErfClaims :=
  {| IssuedAt := IssuedAt c; ExpiresAt := ExpiresAt c; Subject := Subject c;
     SequenceNo := v; Previous := Previous c |}.
Definition set_Previous (v : option string) (c : ErfClaims) : ErfClaims :=
  {| IssuedAt := IssuedAt c; ExpiresAt := ExpiresAt c; Subject := Subject c;
     SequenceNo := SequenceNo c; Previous := v |}.

Definition Int64Ptr (v : Z) : option Z := Some v.
Definition StringPtr (v : string) : option string := Some v.

(** [jwt.Token], of which the client reads the [Valid] flag only. *)
Record jwt_Token : Type := mkToken { Valid : bool }.

(** The codec is not part of this repository: [erf.ParseToken] decodes and
    validates a token, and [SignedString] stands for
    [jwt.NewWithClaims(jwt.SigningMethodNone, c).SignedString(...)].
    Both are functions of their argument alone. *)
Class Transport : Type := {
  ParseToken : list byte → res (jwt_Token * ErfClaims);
  SignedString : ErfClaims → res string
}.

(** ** The world outside the client *)

(** What is at a path: a regular file, whose reading may fail with [rerr],
    or something [os.Stat] fails on with an error other than "not exist".
    A path with no node does not exist. *)
Inductive fnode : Type :=
| Regular (data : list byte) (rerr : option string)
| NoStat (msg : string).

(** How [ioutil.WriteFile] fails at a path, when it does: at [os.OpenFile]
    (nothing is changed), or after the file was opened and truncated, with
    only the first [n] bytes written. *)
Inductive wfault : Type :=
| OpenFails (err : error)
| ShortWrite (n : nat) (err : error).

Record World : Type := mkWorld {
  files : gmap string fnode;
  wfaults : gmap string wfault;
  uuids : nat → string;     (* the identifiers uuid.NewV4 will return *)
  drawn : nat               (* how many of them were drawn *)
}.

(** [clock.Clock]: the readings [Now().Unix()] will give, in order, and how
    many were taken.  A frozen mock clock is a constant function. *)
Record Clock : Type := mkClock {
  readings : nat → Z;
  reads : nat
}.

Definition frozen (t : Z) : Clock := {| readings := λ _, t; reads := 0 |}.

(** The clock after one more reading. *)
Definition tick (k : Clock) : Clock := {| readings := readings k; reads := S (reads k) |}.

(** The reading the next [Now().Unix()] gives, an int64. *)
Definition next_reading (k : Clock) : Z := Int64.wrap (readings k (reads k)).

(** ** The client *)

Record client : Type := mkClient {
  file : string;
  refresh : N;
  claims : option ErfClaims;
  jwt : option (list byte);
  clock : Clock
}.

Definition set_claims (v : option ErfClaims) (c : client) : client :=
  {| file := file c; refresh := refresh c; claims := v; jwt := jwt c; clock := clock c |}.
Definition set_jwt (v : option (list byte)) (c : client) : client :=
  {| file := file c; refresh := refresh c; claims := claims c; jwt := v; clock := clock c |}.
Definition set_clock (v : Clock) (c : client) : client :=
  {| file := file c; refresh := refresh c; claims := claims c; jwt := jwt c; clock := v |}.
Definition set_files (v : gmap string fnode) (w : World) : World :=
  {| files := v; wfaults := wfaults w; uuids := uuids w; drawn := drawn w |}.
Definition set_drawn (v : nat) (w : World) : World :=
  {| files := files w; wfaults := wfaults w; uuids := uuids w; drawn := v |}.

(** ** The monad of the methods: state, errors and panics

    A method of [*client] runs on the client it points to and on the world;
    what it changed before failing stays changed. *)

Record state : Type := State { self : client; world : World }.

Definition M (A : Type) : Type := state → res A * state.

#[global] Instance M_ret : MRet M := λ A a s, (Ret a, s).
#[global] Instance M_bind : MBind M := λ A B f m s,
  match m s with
  | (Ret a, s') => f a s'
  | (Fail err, s') => (Fail err, s')
  | (Panic, s') => (Panic, s')
  end.

Definition get_self : M client := λ s, (Ret (self s), s).
Definition modify_self (f : client → client) : M unit :=
  λ s, (Ret tt, State (f (self s)) (world s)).
Definition lift_res {A} (r : res A) : M A := λ s, (r, s).

(** [*p]: panics on nil. *)
Definition deref {A} (p : option A) : M A := lift_res (match p with Some a => Ret a | None => Panic end).

(** [if err != nil { return ..., k err }]. *)
Definition on_err {A} (k : error → error) (m : M A) : M A := λ s,
  match m s with
  | (Fail err, s') => (Fail (k err), s')
  | r => r
  end.

(** [c.clock.Now().Unix()], an int64. *)
Definition clock_Now_Unix : M Z := λ s,
  let k := clock (self s) in
  (Ret (next_reading k), State (set_clock (tick k) (self s)) (world s)).

(** [uuid.NewV4().String()]. *)
Definition uuid_NewV4 : M string := λ s,
  let w := world s in
  (Ret (uuids w (drawn w)), State (self s) (set_drawn (S (drawn w)) w)).

Definition os_Stat (name : string) : M unit := λ s,
  match files (world s) !! name with
  | None => (Fail ErrNotExist, s)
  | Some (NoStat msg) => (Fail (ErrOS msg), s)
  | Some (Regular _ _) => (Ret tt, s)
  end.

(** [ioutil.ReadFile]: on success the slice is never nil, also for an empty
    file (the buffer is allocated before the first read). *)
Definition ioutil_ReadFile (name : string) : M (option (list byte)) := λ s,
  match files (world s) !! name with
  | None => (Fail ErrNotExist, s)
  | Some (NoStat msg) => (Fail (ErrOS msg), s)
  | Some (Regular _ (Some msg)) => (Fail (ErrOS msg), s)
  | Some (Regular data None) => (Ret (Some data), s)
  end.

(** Whether reading the file at a path fails, and how; a file created with
    mode 0600 can be read by its owner. *)
Definition read_fault (w : World) (name : string) : option string :=
  match files w !! name with
  | Some (Regular _ rerr) => rerr
  | _ => None
  end.

(** [ioutil.WriteFile(name, data, 0600)]: open with O_WRONLY|O_CREATE|O_TRUNC,
    write, close.  The mode is used only for a file that is created; an
    existing file keeps its own (here: whether reading it fails). *)
Definition ioutil_WriteFile (name : string) (data : list byte) : M unit := λ s,
  let w := world s in
  let rerr := read_fault w name in
  match files w !! name, wfaults w !! name with
  | Some (NoStat msg), _ => (Fail (ErrOS msg), s)
  | _, Some (OpenFails err) => (Fail err, s)
  | _, Some (ShortWrite n err) =>
      (Fail err, State (self s) (set_files (<[name := Regular (take n data) rerr]> (files w)) w))
  | _, None =>
      (Ret tt, State (self s) (set_files (<[name := Regular data rerr]> (files w)) w))
  end.

(** ** client.go *)

(** [readFile] reads a file from disk. It returns nil if the file doesn't
    exist. *)
Definition readFile (file : string) : M (option (list byte)) := λ s,
  match os_Stat file s with
  | (Fail err, s') =>
      if os_IsNotExist err then (Ret None, s')   (* File does not exist, that's ok *)
      else (Fail err, s')                        (* something else went wrong *)
  | (Panic, s') => (Panic, s')
  | (Ret _, s') => ioutil_ReadFile file s'
  end.

Section Client.
Context `{Transport}.

(** [persistNewToken] creates a new token, stores the JWT in a cache and
    writes it to disk. *)
Definition persistNewToken : M unit :=
  now ← clock_Now_Unix;
  c ← get_self;
  u ← uuid_NewV4;
  let newClaims := {|
    IssuedAt := Int64Ptr now;
    ExpiresAt := Int64Ptr (Int64.add now (Int64.of_uint (refresh c)));
    Subject := StringPtr u;
    SequenceNo := Int64Ptr 0;
    Previous := StringPtr ""
  |} in
  newClaims ← match claims c with
              | Some old =>
                  seq ← deref (SequenceNo old);
                  let newClaims := set_SequenceNo (Int64Ptr (Int64.add seq 1)) newClaims in
                  sub ← deref (Subject old);
                  mret (set_Previous (StringPtr sub) newClaims)
              | None => mret newClaims
              end;
  jwtString ← on_err (λ err, errors_WithMessage err "failed to create token")
                     (lift_res (SignedString newClaims));
  ioutil_WriteFile (file c) (String.list_byte_of_string jwtString);;
  modify_self (λ c, set_jwt (Some (String.list_byte_of_string jwtString))
                            (set_claims (Some newClaims) c)).

(** [Token] implements ERFClient.Token. *)
Definition Token : M (option (list byte)) :=
  c ← get_self;
  match claims c with
  | None =>
      tokenBytes ← on_err (λ err, errors_Wrap err "failed to read token file")
                          (readFile (file c));
      match tokenBytes with
      | Some bytes =>
          '(token, cl) ← on_err (λ err, errors_Wrap err "failed to parse token")
                                (lift_res (ParseToken bytes));
          if negb (Valid token)
          then lift_res (Fail (errors_New "failed to read token"))
          else modify_self (λ c, set_claims (Some cl) (set_jwt (Some bytes) c))
      | None => mret tt
      end
  | Some _ => mret tt
  end;;
  c ← get_self;
  stale ← match claims c with
          | None => mret true
          | Some cl =>
              now ← clock_Now_Unix;
              exp ← deref (ExpiresAt cl);
              mret (exp <=? now)
          end;
  (if stale : bool
   then on_err (λ err, errors_WithMessage err "failed to create new token")
               persistNewToken
   else mret tt);;
  c ← get_self;
  mret (jwt c).

(** [newWithClock] allows callers to specify the clock, as seen by the
    library. *)
Definition newWithClock (tokenFile : string) (refresh : N) (clock : Clock)
    (w : World) : res client * World :=
  let c := {| file := tokenFile; refresh := refresh; claims := None;
              jwt := None; clock := clock |} in
  (* Grab a token, to trigger file to be written *)
  match Token (State c w) with
  | (Ret _, s) => (Ret (self s), world s)
  | (Fail err, s) => (Fail err, world s)
  | (Panic, s) => (Panic, world s)
  end.

(** [New]: [newWithClock] with the system clock, [clock.New()]. *)
Definition New (system : Clock) (tokenFile : string) (refresh : N) (w : World)
    : res client * World :=
  newWithClock tokenFile refresh system w.
End Client.

(** ** A small codec and world to run the client on

    A fixed-width stand-in for the JWT codec: three big-endian int64, the
    length of the subject in one byte, the subject, the previous subject.
    It rejects what is too short to hold a record, as the JWT parser rejects
    what does not have three segments. *)

Module Demo.
Definition byte_of (z : Z) : byte := default x00 (Byte.of_N (Z.to_N z)).

Fixpoint be_bytes (n : nat) (z : Z) : list byte :=
  match n with
  | O => []
  | S n' => be_bytes n' (z / 256) ++ [byte_of (z mod 256)]
  end.

Definition put64 (z : Z) : list byte := be_bytes 8 (z mod 2 ^ 64).

Definition get64 (l : list byte) : Z :=
  Int64.wrap (fold_left (λ acc b, acc * 256 + Z.of_N (Byte.to_N b)) l 0).

Definition encode (c : ErfClaims) : option (list byte) :=
  match IssuedAt c, ExpiresAt c, SequenceNo c, Subject c, Previous c with
  | Some iat, Some exp, Some seq, Some sub, Some prv =>
      if (String.length sub <? 256)%nat
      then Some (put64 iat ++ put64 exp ++ put64 seq
                 ++ [byte_of (Z.of_nat (String.length sub))]
                 ++ String.list_byte_of_string sub
                 ++ String.list_byte_of_string prv)
      else None
  | _, _, _, _, _ => None
  end.

Definition decode (l : list byte) : res (jwt_Token * ErfClaims) :=
  if (length l <? 25)%nat
  then Fail (errors_New "token contains an invalid number of segments")
  else
    let n := N.to_nat (Byte.to_N (nth 24 l x00)) in
    let rest := drop 25 l in
    if (length rest <? n)%nat
    then Fail (errors_New "token is malformed")
    else Ret ({| Valid := true |},
              {| IssuedAt := Some (get64 (take 8 l));
                 ExpiresAt := Some (get64 (take 8 (drop 8 l)));
                 Subject := Some (String.string_of_list_byte (take n rest));
                 SequenceNo := Some (get64 (take 8 (drop 16 l)));
                 Previous := Some (String.string_of_list_byte (drop n rest)) |}).

Definition transport : Transport := {|
  ParseToken := decode;
  SignedString c :=
    match encode c with
    | Some l => Ret (String.string_of_list_byte l)
    | None => Fail (errors_New "claims are incomplete")
    end
|}.

(** The identifiers the generator hands out: "uuid-A", "uuid-B", ... *)
Definition uuid_of (n : nat) : string :=
  "uuid-" +:+ String (Ascii.ascii_of_nat (65 + n)) "".

(** An empty directory in which every write succeeds. *)
Definition empty_world : World :=
  {| files := ∅; wfaults := ∅; uuids := uuid_of; drawn := 0 |}.

Definition path : string := "newtokenfile".

Definition fresh (refresh : N) (clock : Clock) : client :=
  {| file := path; refresh := refresh; claims := None; jwt := None; clock := clock |}.

(** The first record of a client started at time 0 with refresh 100, and
    its token. *)
Definition recA : ErfClaims :=
  {| IssuedAt := Some 0; ExpiresAt := Some 100; Subject := Some "uuid-A";
     SequenceNo := Some 0; Previous := Some "" |}.

Definition tokenA : list byte := default [] (encode recA).

(** A client that holds it. *)
Definition cached (clock : Clock) : client :=
  {| file := path; refresh := 100; claims := Some recA; jwt := Some tokenA;
     clock := clock |}.

(** A directory with the token file in it, holding [data]; one identifier
    was drawn already. *)
Definition world_with (data : list byte) : World :=
  {| files := {[ path := Regular data None ]}; wfaults := ∅;
     uuids := uuid_of; drawn := 1 |}.


(** A path whose parent directory does not exist: nothing is there, and
    nothing can be created there. *)
Definition no_dir_world : World :=
  {| files := ∅; wfaults := {[ path := OpenFails ErrNotExist ]};
     uuids := uuid_of; drawn := 0 |}.

(** A record whose sequence number is the largest int64, and its token. *)
Definition rec_last : ErfClaims :=
  {| IssuedAt := Some 0; ExpiresAt := Some 100; Subject := Some "uuid-Z";
     SequenceNo := Some Int64.max; Previous := Some "uuid-Y" |}.

Definition token_last : list byte := default [] (encode rec_last).
End Demo.

(** ** Notions the statements use *)

(** A record was minted between two worlds: one identifier was drawn.
    [persistNewToken] is the only code that draws one, once per call. *)
Definition mints (before after : World) : Prop := drawn after = S (drawn before).

(** The bytes of a file do not make a usable token: decoding fails, or the
    decoded token is not valid. *)
Definition corrupt `{Transport} (data : list byte) : Prop :=
  match ParseToken data with
  | Ret (token, _) => Valid token = false
  | Fail _ => True
  | Panic => False
  end.

(** The error [Token] gives for such bytes. *)
Definition corrupt_error `{Transport} (data : list byte) : error :=
  match ParseToken data with
  | Fail err => errors_Wrap err "failed to parse token"
  | _ => errors_New "failed to read token"
  end.

(** The two halves of [persistNewToken], to state what each does.  Lines
    122-133 of client.go: the record built from the reading [now] of the
    clock, the fresh identifier [u] and the cached record. *)
Definition new_claims (c : client) (now : Z) (u : string) : res ErfClaims :=
  let newClaims := {|
    IssuedAt := Int64Ptr now;
    ExpiresAt := Int64Ptr (Int64.add now (Int64.of_uint (refresh c)));
    Subject := StringPtr u;
    SequenceNo := Int64Ptr 0;
    Previous := StringPtr ""
  |} in
  match claims c with
  | None => Ret newClaims
  | Some old =>
      match SequenceNo old, Subject old with
      | Some seq, Some sub =>
          Ret (set_Previous (StringPtr sub)
                 (set_SequenceNo (Int64Ptr (Int64.add seq 1)) newClaims))
      | _, _ => Panic
      end
  end.

(** Lines 135-147: encode the record, write the file, and only then replace
    the cache. *)
Definition commit `{Transport} (name : string) (newClaims : ErfClaims) : M unit := λ s,
  match SignedString newClaims with
  | Ret jwtString =>
      match ioutil_WriteFile name (String.list_byte_of_string jwtString) s with
      | (Ret _, s') =>
          (Ret tt,
           State (set_jwt (Some (String.list_byte_of_string jwtString))
                    (set_claims (Some newClaims) (self s')))
                 (world s'))
      | (Fail err, s') => (Fail err, s')
      | (Panic, s') => (Panic, s')
      end
  | Fail err => (Fail (errors_WithMessage err "failed to create token"), s)
  | Panic => (Panic, s)
  end.

(** The state in which that second half runs: the clock read once, one
    identifier drawn. *)
Definition minting (c : client) (w : World) : state :=
  State (set_clock (tick (clock c)) c) (set_drawn (S (drawn w)) w).

(** The record [Token] has in its cache when it decides whether to rotate:
    the one cached before the call, or else the one it loads from the file
    (lines 69-89 of client.go). *)
Definition held `{Transport} (c : client) (w : World) : option ErfClaims :=
  match claims c with
  | Some cl => Some cl
  | None =>
      match files w !! file c with
      | Some (Regular data None) =>
          match ParseToken data with
          | Ret (token, cl) => if Valid token then Some cl else None
          | _ => None
          end
      | _ => None
      end
  end.

(** What [Token] does once the cache is loaded and found stale (lines 91-98
    of client.go): rotate, then return the cached bytes. *)
Definition rotate_and_return `{Transport} : M (option (list byte)) :=
  on_err (λ err, errors_WithMessage err "failed to create new token") persistNewToken;;
  c ← get_self;
  mret (jwt c).

(** The client on which [Token] runs the rotation step, when it gets that
    far (lines 69-91 of client.go): a client that holds a stale record,
    after the reading of the clock that found it stale; a client with an
    empty cache and no file, as it is; a client with an empty cache and a
    file that holds a valid, stale token, with the cache loaded from the
    file and the clock read.  In every other case [Token] returns before
    the rotation step. *)
Definition stale_start (c : client) (cl : ErfClaims) : option client :=
  match ExpiresAt cl with
  | Some exp =>
      if exp <=? next_reading (clock c)
      then Some (set_clock (tick (clock c)) c)
      else None
  | None => None
  end.

Definition rotation_start `{Transport} (c : client) (w : World) : option client :=
  match claims c with
  | Some cl => stale_start c cl
  | None =>
      match files w !! file c with
      | None => Some c
      | Some (Regular data None) =>
          match ParseToken data with
          | Ret (token, cl) =>
              if Valid token
              then stale_start (set_claims (Some cl) (set_jwt (Some data) c)) cl
              else None
          | _ => None
          end
      | Some _ => None
      end
  end.


(** ** Further notions and inputs *)

(** The reading the clock gave last. *)
Definition last_reading (k : Clock) : Z := Int64.wrap (readings k (Nat.pred (reads k))).

(** [n] rotations in a row, stopping at the first that does not succeed. *)
Fixpoint rotate_n `{Transport} (n : nat) (s : state) : res unit * state :=
  match n with
  | O => (Ret tt, s)
  | S k =>
      match rotate_n k s with
      | (Ret _, s') => persistNewToken s'
      | r => r
      end
  end.

Module Faults.
(** The token file is there but cannot be read. *)
Definition unreadable_world : World :=
  {| files := {[ Demo.path := Regular Demo.tokenA (Some "permission denied") ]};
     wfaults := ∅; uuids := Demo.uuid_of; drawn := 1 |}.

(** The path cannot be resolved: [os.Stat] fails, not with "not exist". *)
Definition nostat_world : World :=
  {| files := {[ Demo.path := NoStat "not a directory" ]};
     wfaults := ∅; uuids := Demo.uuid_of; drawn := 1 |}.

(** The disk fills up: the token file is opened and truncated, and only
    the first 10 bytes of the new token are written. *)
Definition disk_full_world : World :=
  {| files := {[ Demo.path := Regular Demo.tokenA None ]};
     wfaults := {[ Demo.path := ShortWrite 10 (ErrOS "no space left on device") ]};
     uuids := Demo.uuid_of; drawn := 1 |}.

(** The token file was deleted; the directory is still there. *)
Definition deleted_world : World :=
  {| files := ∅; wfaults := ∅; uuids := Demo.uuid_of; drawn := 1 |}.

(** The record that follows [Demo.recA] when minted at time 100. *)
Definition recB : ErfClaims :=
  {| IssuedAt := Some 100; ExpiresAt := Some 200; Subject := Some "uuid-B";
     SequenceNo := Some 1; Previous := Some "uuid-A" |}.

Definition tokenB : list byte := default [] (Demo.encode recB).
End Faults.

(** What a method may change, seen from before ([c], [w]) and after ([s']):
    not the configuration of the client, not the identifiers to come or the
    faults of the disk, and no file but the client's own. *)
Definition framed (c : client) (w : World) (s' : state) : Prop :=
  file (self s') = file c ∧ refresh (self s') = refresh c
  ∧ wfaults (world s') = wfaults w ∧ uuids (world s') = uuids w
  ∧ ∀ p, p ≠ file c → files (world s') !! p = files w !! p.

(** The record [persistNewToken] chains to a cached record with sequence
    number [seq] and subject [sub] (lines 122-133 of client.go, with the
    cached record present). *)
Definition chained (now : Z) (refresh : N) (u : string) (seq : Z) (sub : string)
    : ErfClaims :=
  {| IssuedAt := Some now;
     ExpiresAt := Some (Int64.add now (Int64.of_uint refresh));
     Subject := Some u;
     SequenceNo := Some (Int64.add seq 1);
     Previous := Some sub |}.

(** The cached bytes belong to the cached record: they were decoded to it,
    or they are its encoding. *)
Definition belongs `{Transport} (cl : ErfClaims) (data : list byte) : Prop :=
  (∃ token, ParseToken data = Ret (token, cl) ∧ Valid token = true)
  ∨ (∃ jwtString, SignedString cl = Ret jwtString
                  ∧ data = String.list_byte_of_string jwtString).

Module Nil.
(** A record without an expiry, and a client that holds it. *)
Definition no_expiry : ErfClaims :=
  {| IssuedAt := Some 0; ExpiresAt := None; Subject := Some "uuid-A";
     SequenceNo := Some 0; Previous := Some "" |}.

Definition holder : client :=
  {| file := Demo.path; refresh := 100; claims := Some no_expiry;
     jwt := Some Demo.tokenA; clock := frozen 0 |}.
End Nil.

(** * Properties *)

(** ** int64 arithmetic *)

Lemma wrap_in_range z : Int64.in_range z → Int64.wrap z = z.
Proof.
  unfold Int64.in_range, Int64.wrap, Int64.min, Int64.max. intros Hz.
  rewrite Z.mod_small; lia.
Qed.

Lemma wrap_range z : Int64.in_range (Int64.wrap z).
Proof.
  unfold Int64.in_range, Int64.wrap, Int64.min, Int64.max.
  pose proof (Z.mod_pos_bound (z + 2 ^ 63) (2 ^ 64) ltac:(lia)). lia.
Qed.

Lemma next_reading_range k : Int64.in_range (next_reading k).
Proof. apply wrap_range. Qed.

Lemma add_exact a b : Int64.in_range (a + b) → Int64.add a b = a + b.
Proof. apply wrap_in_range. Qed.

Lemma of_uint_exact u : Z.of_N u <= Int64.max → Int64.of_uint u = Z.of_N u.
Proof.
  intros Hu. apply wrap_in_range. unfold Int64.in_range, Int64.min in *. lia.
Qed.

(** [now + int64(refresh)]: the wrap-around of the conversion and that of the
    sum are one wrap-around of the exact sum. *)
Lemma add_of_uint a u : Int64.add a (Int64.of_uint u) = Int64.wrap (a + Z.of_N u).
Proof.
  unfold Int64.add, Int64.of_uint, Int64.wrap. f_equal.
  replace (a + ((Z.of_N u + 2 ^ 63) mod 2 ^ 64 - 2 ^ 63) + 2 ^ 63)
    with (a + (Z.of_N u + 2 ^ 63) mod 2 ^ 64) by lia.
  rewrite Z.add_mod_idemp_r by lia. f_equal. lia.
Qed.

Lemma add_of_uint_exact a u :
  Int64.in_range a → a + Z.of_N u <= Int64.max →
  Int64.add a (Int64.of_uint u) = a + Z.of_N u.
Proof.
  intros Ha Hu. rewrite add_of_uint. apply wrap_in_range.
  unfold Int64.in_range in *. lia.
Qed.

Lemma add_one_max : Int64.add Int64.max 1 = Int64.min.
Proof. reflexivity. Qed.

(** ** Running the methods *)

Ltac run :=
  unfold rotate_and_return, clock_Now_Unix, uuid_NewV4, deref, on_err, lift_res,
    get_self, modify_self, mbind, M_bind, mret, M_ret in *;
  simpl in *.

Ltac run_io :=
  unfold readFile, os_Stat, ioutil_ReadFile, ioutil_WriteFile in *; run.

(** [readFile] by what is at the path; it changes nothing. *)
Lemma readFile_missing name s :
  files (world s) !! name = None → readFile name s = (Ret None, s).
Proof. intros Hf. run_io. rewrite Hf. reflexivity. Qed.

Lemma readFile_regular name s data :
  files (world s) !! name = Some (Regular data None) →
  readFile name s = (Ret (Some data), s).
Proof. intros Hf. run_io. rewrite !Hf. reflexivity. Qed.

Lemma readFile_unreadable name s data msg :
  files (world s) !! name = Some (Regular data (Some msg)) →
  readFile name s = (Fail (ErrOS msg), s).
Proof. intros Hf. run_io. rewrite !Hf. reflexivity. Qed.

Lemma readFile_nostat name s msg :
  files (world s) !! name = Some (NoStat msg) →
  readFile name s = (Fail (ErrOS msg), s).
Proof. intros Hf. run_io. rewrite Hf. reflexivity. Qed.

Lemma readFile_state name s : (readFile name s).2 = s.
Proof.
  destruct (files (world s) !! name) as [[data [msg|]|msg]|] eqn:Hf.
  - by erewrite readFile_unreadable.
  - by erewrite readFile_regular.
  - by erewrite readFile_nostat.
  - by erewrite readFile_missing.
Qed.

Section ClientFacts.
Context `{Transport}.

(** A cached record that is not stale: [Token] reads the clock and returns
    the cached bytes; nothing else changes. *)
Lemma Token_cached_live c w cl e :
  claims c = Some cl → ExpiresAt cl = Some e → next_reading (clock c) < e →
  Token (State c w) = (Ret (jwt c), State (set_clock (tick (clock c)) c) w).
Proof.
  intros Hc He Hlt. unfold Token. run. rewrite Hc. simpl. rewrite Hc, He. simpl.
  destruct (Z.leb_spec e (next_reading (clock c))); [lia | reflexivity].
Qed.

(** A cached record that is stale: [Token] reads the clock and rotates. *)
Lemma Token_cached_stale c w cl e :
  claims c = Some cl → ExpiresAt cl = Some e → e <= next_reading (clock c) →
  Token (State c w) = rotate_and_return (State (set_clock (tick (clock c)) c) w).
Proof.
  intros Hc He Hle. unfold Token. run. rewrite Hc. simpl. rewrite Hc, He. simpl.
  destruct (Z.leb_spec e (next_reading (clock c))); [reflexivity | lia].
Qed.

(** Nothing cached and no file: first run, [Token] goes straight to the
    rotation, without reading the clock for an expiry check. *)
Lemma Token_first_run c w :
  claims c = None → files w !! file c = None →
  Token (State c w) = rotate_and_return (State c w).
Proof.
  intros Hc Hf. unfold Token. run. rewrite Hc. simpl.
  rewrite readFile_missing by exact Hf. simpl. rewrite Hc. reflexivity.
Qed.

(** Nothing cached and a file that decodes to a valid token: [Token] goes
    on as from the cache loaded with it. *)
Lemma Token_load c w data token cl :
  claims c = None → files w !! file c = Some (Regular data None) →
  ParseToken data = Ret (token, cl) → Valid token = true →
  Token (State c w) = Token (State (set_claims (Some cl) (set_jwt (Some data) c)) w).
Proof.
  intros Hc Hf Hp Hv. unfold Token. run. rewrite Hc. simpl.
  rewrite (readFile_regular _ _ data) by exact Hf. simpl.
  rewrite Hp. simpl. rewrite Hv. simpl. reflexivity.
Qed.

(** [persistNewToken] is its two halves in sequence. *)
Lemma persistNewToken_unfold c w :
  persistNewToken (State c w) =
  match new_claims c (next_reading (clock c)) (uuids w (drawn w)) with
  | Ret newClaims => commit (file c) newClaims (minting c w)
  | Fail err => (Fail err, minting c w)
  | Panic => (Panic, minting c w)
  end.
Proof.
  unfold persistNewToken, new_claims, commit, minting. run.
  destruct (claims c) as [old|]; simpl.
  - destruct (SequenceNo old); simpl; [|reflexivity].
    destruct (Subject old); simpl; [|reflexivity].
    destruct (SignedString _); reflexivity.
  - destruct (SignedString _); reflexivity.
Qed.
End ClientFacts.

(** [ioutil.WriteFile] touches the files only. *)
Lemma WriteFile_frame name data s :
  let s' := (ioutil_WriteFile name data s).2 in
  self s' = self s ∧ drawn (world s') = drawn (world s)
  ∧ uuids (world s') = uuids (world s) ∧ wfaults (world s') = wfaults (world s).
Proof.
  unfold ioutil_WriteFile.
  destruct (files (world s) !! name) as [[d r|msg]|];
    destruct (wfaults (world s) !! name) as [[err|n err]|]; simpl; auto.
Qed.

(** A write that succeeds leaves the bytes in the file. *)
Lemma WriteFile_ret name data s u s' :
  ioutil_WriteFile name data s = (Ret u, s') →
  files (world s') !! name = Some (Regular data (read_fault (world s) name))
  ∧ wfaults (world s) !! name = None.
Proof.
  unfold ioutil_WriteFile.
  destruct (files (world s) !! name) as [[d r|msg]|];
    destruct (wfaults (world s) !! name) as [[err|n err]|]; simpl;
    intros E; inversion E; subst; simpl; rewrite ?lookup_insert_eq; auto.
Qed.

(** A write succeeds when nothing is in its way. *)
Lemma WriteFile_ok name data s :
  (∀ msg, files (world s) !! name ≠ Some (NoStat msg)) →
  wfaults (world s) !! name = None →
  ioutil_WriteFile name data s =
  (Ret tt, State (self s)
             (set_files (<[name := Regular data (read_fault (world s) name)]> (files (world s)))
                        (world s))).
Proof.
  intros Hf Hw. unfold ioutil_WriteFile. rewrite Hw.
  destruct (files (world s) !! name) as [[d r|msg]|] eqn:E; try reflexivity.
  by destruct (Hf msg).
Qed.

Section CommitFacts.
Context `{Transport}.

(** The second half of a rotation that does not succeed leaves the client
    as it was. *)
Lemma commit_not_ret name nc s :
  (∀ u, (commit name nc s).1 ≠ Ret u) → self (commit name nc s).2 = self s.
Proof.
  unfold commit. destruct (SignedString nc) as [js| |]; simpl; auto.
  pose proof (WriteFile_frame name (String.list_byte_of_string js) s) as (Hs & _).
  simpl in Hs.
  destruct (ioutil_WriteFile _ _ _) as [[u| |] s']; simpl in *; auto.
  intros Hn. by destruct (Hn tt).
Qed.

(** The second half of a rotation that succeeds: the record was encoded,
    the bytes are in the file and in the cache, next to the record. *)
Lemma commit_ret name nc s u s' :
  commit name nc s = (Ret u, s') →
  ∃ jwtString,
    SignedString nc = Ret jwtString
    ∧ self s' = set_jwt (Some (String.list_byte_of_string jwtString))
                  (set_claims (Some nc) (self s))
    ∧ files (world s') !! name =
        Some (Regular (String.list_byte_of_string jwtString) (read_fault (world s) name))
    ∧ drawn (world s') = drawn (world s).
Proof.
  unfold commit. destruct (SignedString nc) as [js| |]; simpl; try discriminate.
  pose proof (WriteFile_frame name (String.list_byte_of_string js) s) as (Hs & Hd & _).
  destruct (ioutil_WriteFile _ _ _) as [[v| |] s1] eqn:E; simpl in *; try discriminate.
  intros [= <- <-]. exists js. simpl. rewrite Hs.
  apply WriteFile_ret in E as [Hf _]. auto.
Qed.

(** It succeeds when the record encodes and nothing is in the way of the
    write. *)
Lemma commit_ok name nc s jwtString :
  SignedString nc = Ret jwtString →
  (∀ msg, files (world s) !! name ≠ Some (NoStat msg)) →
  wfaults (world s) !! name = None →
  commit name nc s =
  (Ret tt,
   State (set_jwt (Some (String.list_byte_of_string jwtString))
            (set_claims (Some nc) (self s)))
         (set_files (<[name := Regular (String.list_byte_of_string jwtString)
                                 (read_fault (world s) name)]> (files (world s)))
                    (world s))).
Proof.
  intros Hs Hf Hw. unfold commit. rewrite Hs.
  rewrite WriteFile_ok by assumption. reflexivity.
Qed.

(** [commit] draws no identifier and does not read the clock. *)
Lemma commit_frame name nc s :
  drawn (world (commit name nc s).2) = drawn (world s)
  ∧ clock (self (commit name nc s).2) = clock (self s).
Proof.
  unfold commit. destruct (SignedString nc) as [js| |]; simpl; auto.
  pose proof (WriteFile_frame name (String.list_byte_of_string js) s) as (Hs & Hd & _).
  destruct (ioutil_WriteFile _ _ _) as [[v| |] s1]; simpl in *; rewrite ?Hs; auto.
Qed.

(** [persistNewToken] draws exactly one identifier and reads the clock
    once, whatever its outcome. *)
Lemma persistNewToken_draws c w :
  mints w (world (persistNewToken (State c w)).2)
  ∧ clock (self (persistNewToken (State c w)).2) = tick (clock c).
Proof.
  rewrite persistNewToken_unfold. unfold mints.
  destruct (new_claims _ _ _) as [nc| |]; simpl; auto.
  apply (commit_frame (file c) nc (minting c w)).
Qed.

Lemma rotate_and_return_draws c w :
  mints w (world (rotate_and_return (State c w)).2).
Proof.
  unfold rotate_and_return. run.
  pose proof (persistNewToken_draws c w) as [Hd _].
  destruct (persistNewToken _) as [[| |] s']; simpl in *; exact Hd.
Qed.

(** A rotation that does not succeed leaves the cached record and bytes
    as they were. *)
Lemma persistNewToken_not_ret c w :
  (∀ u, (persistNewToken (State c w)).1 ≠ Ret u) →
  claims (self (persistNewToken (State c w)).2) = claims c
  ∧ jwt (self (persistNewToken (State c w)).2) = jwt c.
Proof.
  rewrite persistNewToken_unfold.
  destruct (new_claims _ _ _) as [nc| |]; simpl; auto.
  intros Hn. rewrite (commit_not_ret _ _ _ Hn). auto.
Qed.

(** A rotation that succeeds: the record of [new_claims] is cached, with
    its encoding, which is also in the file. *)
Lemma persistNewToken_ret c w u s' :
  persistNewToken (State c w) = (Ret u, s') →
  ∃ nc jwtString,
    new_claims c (next_reading (clock c)) (uuids w (drawn w)) = Ret nc
    ∧ SignedString nc = Ret jwtString
    ∧ claims (self s') = Some nc
    ∧ jwt (self s') = Some (String.list_byte_of_string jwtString)
    ∧ files (world s') !! file c =
        Some (Regular (String.list_byte_of_string jwtString) (read_fault w (file c))).
Proof.
  rewrite persistNewToken_unfold.
  destruct (new_claims _ _ _) as [nc| |]; try discriminate.
  intros Hc. apply commit_ret in Hc as (js & Hs & Hself & Hf & _).
  exists nc, js. rewrite Hself. simpl. auto.
Qed.
End CommitFacts.

Section TokenFacts.
Context `{Transport}.

Lemma rotate_and_return_unfold s :
  rotate_and_return s =
  match persistNewToken s with
  | (Ret _, s') => (Ret (jwt (self s')), s')
  | (Fail err, s') => (Fail (errors_WithMessage err "failed to create new token"), s')
  | (Panic, s') => (Panic, s')
  end.
Proof.
  unfold rotate_and_return. run.
  destruct (persistNewToken s) as [[u|err|] s']; reflexivity.
Qed.

(** [Token] on a client that holds a record. *)
Lemma Token_cached c w cl :
  claims c = Some cl →
  Token (State c w) =
  match ExpiresAt cl with
  | None => (Panic, State (set_clock (tick (clock c)) c) w)
  | Some e =>
      if e <=? next_reading (clock c)
      then rotate_and_return (State (set_clock (tick (clock c)) c) w)
      else (Ret (jwt c), State (set_clock (tick (clock c)) c) w)
  end.
Proof.
  intros Hc. destruct (ExpiresAt cl) as [e|] eqn:He.
  - destruct (Z.leb_spec e (next_reading (clock c))).
    + apply (Token_cached_stale c w cl e); assumption.
    + apply (Token_cached_live c w cl e); assumption.
  - unfold Token. run. rewrite Hc. simpl. rewrite Hc, He. reflexivity.
Qed.

(** [Token] on a client that holds none, by what is at the path. *)
Lemma Token_uncached c w :
  claims c = None →
  Token (State c w) =
  match files w !! file c with
  | None => rotate_and_return (State c w)
  | Some (NoStat msg) | Some (Regular _ (Some msg)) =>
      (Fail (errors_Wrap (ErrOS msg) "failed to read token file"), State c w)
  | Some (Regular data None) =>
      match ParseToken data with
      | Ret (token, cl) =>
          if Valid token
          then Token (State (set_claims (Some cl) (set_jwt (Some data) c)) w)
          else (Fail (errors_New "failed to read token"), State c w)
      | Fail err => (Fail (errors_Wrap err "failed to parse token"), State c w)
      | Panic => (Panic, State c w)
      end
  end.
Proof.
  intros Hc. destruct (files w !! file c) as [[data [msg|]|msg]|] eqn:Hf.
  - unfold Token. run. rewrite Hc. simpl.
    rewrite (readFile_unreadable _ _ data msg) by exact Hf. reflexivity.
  - destruct (ParseToken data) as [[token cl]|err|] eqn:Hp.
    + destruct (Valid token) eqn:Hv.
      * apply (Token_load c w data token cl); assumption.
      * unfold Token. run. rewrite Hc. simpl.
        rewrite (readFile_regular _ _ data) by exact Hf. simpl.
        rewrite Hp. simpl. rewrite Hv. reflexivity.
    + unfold Token. run. rewrite Hc. simpl.
      rewrite (readFile_regular _ _ data) by exact Hf. simpl.
      rewrite Hp. reflexivity.
    + unfold Token. run. rewrite Hc. simpl.
      rewrite (readFile_regular _ _ data) by exact Hf. simpl.
      rewrite Hp. reflexivity.
  - unfold Token. run. rewrite Hc. simpl.
    rewrite (readFile_nostat _ _ msg) by exact Hf. reflexivity.
  - apply Token_first_run; assumption.
Qed.

(** A rotation that [Token] runs and that fails leaves the cache alone. *)
Lemma rotate_and_return_fail c w err s' :
  rotate_and_return (State c w) = (Fail err, s') →
  claims (self s') = claims c ∧ jwt (self s') = jwt c.
Proof.
  rewrite rotate_and_return_unfold.
  pose proof (persistNewToken_not_ret c w) as Hk.
  destruct (persistNewToken (State c w)) as [[u|e|] s1]; simpl in *;
    intros E; inversion E; subst.
  apply Hk. intros u. discriminate.
Qed.

(** A rotation that [Token] runs and that succeeds: the record of
    [new_claims] is cached, and its token is returned and in the file. *)
Lemma rotate_and_return_ret c w b s' :
  rotate_and_return (State c w) = (Ret b, s') →
  ∃ nc data,
    new_claims c (next_reading (clock c)) (uuids w (drawn w)) = Ret nc
    ∧ claims (self s') = Some nc ∧ b = Some data ∧ jwt (self s') = Some data
    ∧ files (world s') !! file c = Some (Regular data (read_fault w (file c))).
Proof.
  rewrite rotate_and_return_unfold.
  destruct (persistNewToken (State c w)) as [[u|e|] s1] eqn:E; simpl;
    intros E'; inversion E'; subst.
  apply persistNewToken_ret in E as (nc & js & Hn & _ & Hc & Hj & Hf).
  exists nc, (String.list_byte_of_string js). auto.
Qed.

(** When [Token] fails on a client that holds a record, the cache is as
    it was. *)
Lemma Token_cached_fail c w cl err s' :
  claims c = Some cl → Token (State c w) = (Fail err, s') →
  claims (self s') = claims c ∧ jwt (self s') = jwt c.
Proof.
  intros Hc. rewrite (Token_cached c w cl Hc).
  destruct (ExpiresAt cl) as [e|]; [|discriminate].
  destruct (e <=? next_reading (clock c)); [|discriminate].
  intros E. apply rotate_and_return_fail in E. exact E.
Qed.

(** When [Token] succeeds on a client that holds a record and a record
    was minted, it is the one [new_claims] builds from the cached one. *)
Lemma Token_cached_ret c w cl b s' :
  claims c = Some cl → Token (State c w) = (Ret b, s') → mints w (world s') →
  ∃ c0 now nc data,
    claims c0 = Some cl ∧ refresh c0 = refresh c ∧ Int64.in_range now
    ∧ new_claims c0 now (uuids w (drawn w)) = Ret nc
    ∧ claims (self s') = Some nc ∧ b = Some data ∧ jwt (self s') = Some data
    ∧ files (world s') !! file c = Some (Regular data (read_fault w (file c))).
Proof.
  intros Hc. rewrite (Token_cached c w cl Hc).
  destruct (ExpiresAt cl) as [e|]; [|discriminate].
  destruct (e <=? next_reading (clock c)).
  - intros E _.
    apply rotate_and_return_ret in E as (nc & data & Hn & Hcl & Hb & Hj & Hf).
    exists (set_clock (tick (clock c)) c), (next_reading (tick (clock c))), nc, data.
    simpl in *. repeat split; auto; apply next_reading_range.
  - intros E Hm. inversion E; subst. unfold mints in Hm. simpl in Hm. lia.
Qed.

(** The same for any client: the minted record is built from the record
    [held] at the decision. *)
Lemma Token_ret_mints c w b s' :
  Token (State c w) = (Ret b, s') → mints w (world s') →
  ∃ c0 now nc data,
    claims c0 = held c w ∧ refresh c0 = refresh c ∧ Int64.in_range now
    ∧ new_claims c0 now (uuids w (drawn w)) = Ret nc
    ∧ claims (self s') = Some nc ∧ b = Some data ∧ jwt (self s') = Some data
    ∧ files (world s') !! file c = Some (Regular data (read_fault w (file c))).
Proof.
  destruct (claims c) as [cl|] eqn:Hc.
  - intros E Hm. unfold held. rewrite Hc.
    apply (Token_cached_ret c w cl b s'); assumption.
  - rewrite (Token_uncached c w Hc). unfold held. rewrite Hc.
    destruct (files w !! file c) as [[data [msg|]|msg]|]; try discriminate.
    + destruct (ParseToken data) as [[token cl]|err|]; try discriminate.
      destruct (Valid token); [|discriminate].
      intros E Hm.
      destruct (Token_cached_ret (set_claims (Some cl) (set_jwt (Some data) c))
                  w cl b s' eq_refl E Hm) as (c0 & now & nc & d & H1 & H2 & H3).
      exists c0, now, nc, d. auto.
    + intros E _.
      apply rotate_and_return_ret in E as (nc & d & Hn & Hcl & Hb & Hj & Hf).
      exists c, (next_reading (clock c)), nc, d.
      repeat split; auto; apply next_reading_range.
Qed.

(** What [new_claims] builds. *)
Lemma new_claims_ret c now u nc :
  new_claims c now u = Ret nc →
  IssuedAt nc = Some now
  ∧ ExpiresAt nc = Some (Int64.add now (Int64.of_uint (refresh c)))
  ∧ Subject nc = Some u
  ∧ match claims c with
    | None => SequenceNo nc = Some 0 ∧ Previous nc = Some ""
    | Some old =>
        ∃ seq sub, SequenceNo old = Some seq ∧ Subject old = Some sub
                   ∧ SequenceNo nc = Some (Int64.add seq 1)
                   ∧ Previous nc = Some sub
    end.
Proof.
  unfold new_claims. destruct (claims c) as [old|].
  - destruct (SequenceNo old) as [seq|]; [|discriminate].
    destruct (Subject old) as [sub|]; [|discriminate].
    intros [= <-]. simpl. repeat split. exists seq, sub. auto.
  - intros [= <-]. simpl. auto.
Qed.
End TokenFacts.

(** ** The tests of the repository, run on the model *)

(** Closed examples run with the codec of [Demo]; the theorems take any
    codec. *)
#[local] Existing Instance Demo.transport.

(** TestReadBadFile. *)
Example TestReadBadFile :
  (readFile "this does not exist" (State (Demo.fresh 100 (frozen 0)) Demo.empty_world)).1
  = Ret None.
Proof. reflexivity. Qed.

(** TestFirstToken: the first record, and a second client that reads it
    back. *)
Example TestFirstToken :
  let '(r1, w1) := newWithClock Demo.path 100 (frozen 0) Demo.empty_world in
  let '(r2, w2) := newWithClock Demo.path 100 (frozen 0) w1 in
  (claims <$> (match r1 with Ret c => Some c | _ => None end))
  = Some (Some Demo.recA)
  ∧ (claims <$> (match r2 with Ret c => Some c | _ => None end))
  = Some (Some Demo.recA).
Proof. vm_compute. split; reflexivity. Qed.

(** TestNoRollover and TestRollover: the clock at 99 and at 100. *)
Example TestNoRollover :
  claims (self (Token (State (Demo.cached (frozen 99)) (Demo.world_with Demo.tokenA))).2)
  = Some Demo.recA.
Proof. vm_compute. reflexivity. Qed.

Example TestRollover :
  claims (self (Token (State (Demo.cached (frozen 100)) (Demo.world_with Demo.tokenA))).2)
  = Some {| IssuedAt := Some 100; ExpiresAt := Some 200; Subject := Some "uuid-B";
            SequenceNo := Some 1; Previous := Some "uuid-A" |}.
Proof. vm_compute. reflexivity. Qed.

(** The scenario of the specification: refresh 100, the clock at 0, then 99
    seconds later, then one more second later. *)
Example scenario :
  let s0 := (Token (State (Demo.fresh 100 (frozen 0)) Demo.empty_world)).2 in
  let s1 := (Token (State (set_clock (frozen 99) (self s0)) (world s0))).2 in
  let s2 := (Token (State (set_clock (frozen 100) (self s1)) (world s1))).2 in
  claims (self s0) = Some Demo.recA
  ∧ claims (self s1) = Some Demo.recA
  ∧ claims (self s2)
    = Some {| IssuedAt := Some 100; ExpiresAt := Some 200; Subject := Some "uuid-B";
              SequenceNo := Some 1; Previous := Some "uuid-A" |}.
Proof. vm_compute. repeat split; reflexivity. Qed.

(** ** Expiry and idempotence *)

(** C2. Expiry is inclusive at the boundary. For a client that holds a
    record with expiry [e], [Token] mints a record exactly when the reading
    of the clock is at least [e]: below [e] it returns the cached bytes and
    changes nothing but the clock, from [e] on it runs the rotation. In
    particular, for a record issued at [i] that expires at [i + r], nothing
    is minted at [i + r - 1] and a record is minted at [i + r]. *)
Theorem Token_rotates_iff_expired `{Transport} c w cl e :
  claims c = Some cl → ExpiresAt cl = Some e →
  (mints w (world (Token (State c w)).2) ↔ e <= next_reading (clock c))
  ∧ (next_reading (clock c) < e →
     Token (State c w) = (Ret (jwt c), State (set_clock (tick (clock c)) c) w))
  ∧ (e <= next_reading (clock c) →
     Token (State c w) = rotate_and_return (State (set_clock (tick (clock c)) c) w))
  ∧ (∀ i r, IssuedAt cl = Some i → e = i + r →
       (next_reading (clock c) = i + r - 1 → ¬ mints w (world (Token (State c w)).2))
       ∧ (next_reading (clock c) = i + r → mints w (world (Token (State c w)).2))).
Proof.
  intros Hc He.
  assert (Hiff : mints w (world (Token (State c w)).2) ↔ e <= next_reading (clock c)).
  { destruct (Z.le_gt_cases e (next_reading (clock c))) as [Hle|Hlt].
    - rewrite (Token_cached_stale c w cl e) by assumption.
      split; [intros _; exact Hle | intros _; apply rotate_and_return_draws].
    - rewrite (Token_cached_live c w cl e) by assumption.
      unfold mints. simpl. split; lia. }
  split; [exact Hiff|]. split; [|split].
  - apply (Token_cached_live c w cl e); assumption.
  - apply (Token_cached_stale c w cl e); assumption.
  - intros i r _ ->. rewrite Hiff. split; lia.
Qed.

Lemma Token_rotates_iff_expired_witness :
  (mints (Demo.world_with Demo.tokenA)
     (world (Token (State (Demo.cached (frozen 100)) (Demo.world_with Demo.tokenA))).2)
   ↔ 100 <= next_reading (frozen 100)).
Proof.
  apply (Token_rotates_iff_expired (Demo.cached (frozen 100))
           (Demo.world_with Demo.tokenA) Demo.recA 100); reflexivity.
Defined.

(** C4. Idempotence under non-expiry. For a client that holds a record, two
    successive [Token] calls whose readings of the clock are both below the
    record's expiry return the same bytes, the cached ones, whatever
    happened to the world in between. *)
Theorem Token_idempotent_until_expiry `{Transport} c w w2 cl e :
  claims c = Some cl → ExpiresAt cl = Some e →
  next_reading (clock c) < e → next_reading (tick (clock c)) < e →
  (Token (State c w)).1 = Ret (jwt c)
  ∧ (Token (State (self (Token (State c w)).2) w2)).1 = (Token (State c w)).1
  ∧ claims (self (Token (State (self (Token (State c w)).2) w2)).2) = claims c
  ∧ jwt (self (Token (State (self (Token (State c w)).2) w2)).2) = jwt c.
Proof.
  intros Hc He H1 H2.
  rewrite (Token_cached_live c w cl e) by assumption. simpl.
  rewrite (Token_cached_live (set_clock (tick (clock c)) c) w2 cl e) by assumption.
  simpl. auto.
Qed.

Lemma Token_idempotent_until_expiry_witness :
  (Token (State (Demo.cached (frozen 99)) (Demo.world_with Demo.tokenA))).1
  = Ret (Some Demo.tokenA)
  ∧ (Token (State (self (Token (State (Demo.cached (frozen 99))
                                  (Demo.world_with Demo.tokenA))).2)
              Demo.empty_world)).1
    = (Token (State (Demo.cached (frozen 99)) (Demo.world_with Demo.tokenA))).1.
Proof.
  pose proof (Token_idempotent_until_expiry (Demo.cached (frozen 99))
                (Demo.world_with Demo.tokenA) Demo.empty_world Demo.recA 100
                eq_refl eq_refl eq_refl eq_refl) as (H1 & H2 & _).
  exact (conj H1 H2).
Defined.

(** ** The read path *)

(** C6. Corrupt file is fatal. When nothing is cached and the file exists
    but its bytes do not decode, or decode to a token that is not valid,
    [Token] returns an error and leaves the client and the world as they
    were: no record is minted and the file is not overwritten. Construction,
    which calls [Token], fails with the same error. *)
Theorem corrupt_file_is_fatal `{Transport} c w data :
  claims c = None → files w !! file c = Some (Regular data None) → corrupt data →
  Token (State c w) = (Fail (corrupt_error data), State c w)
  ∧ (∀ r clk, newWithClock (file c) r clk w = (Fail (corrupt_error data), w)).
Proof.
  intros Hc Hf Hbad.
  assert (Hrun : ∀ c', claims c' = None → file c' = file c →
                 Token (State c' w) = (Fail (corrupt_error data), State c' w)).
  { intros c' Hc' Hfile. unfold Token. run. rewrite Hc'. simpl.
    rewrite (readFile_regular _ _ data) by (simpl; rewrite Hfile; exact Hf). simpl.
    unfold corrupt, corrupt_error in *.
    destruct (ParseToken data) as [[token cl]| |]; simpl; [|reflexivity|contradiction].
    rewrite Hbad. reflexivity. }
  split; [apply Hrun; auto|].
  intros r clk. unfold newWithClock. rewrite Hrun; reflexivity.
Qed.

Lemma corrupt_file_is_fatal_witness :
  Token (State (Demo.fresh 100 (frozen 0)) (Demo.world_with [x01; x02; x03]))
  = (Fail (errors_Wrap (errors_New "token contains an invalid number of segments")
             "failed to parse token"),
     State (Demo.fresh 100 (frozen 0)) (Demo.world_with [x01; x02; x03])).
Proof.
  exact (proj1 (corrupt_file_is_fatal (Demo.fresh 100 (frozen 0))
                  (Demo.world_with [x01; x02; x03]) [x01; x02; x03]
                  eq_refl eq_refl I)).
Defined.

(** C10. An existing but empty file is not a missing file. [readFile] gives
    a non-nil empty slice for it, so [Token] hands the empty bytes to the
    decoder; when the decoder rejects them, as a JWT parser does, [Token]
    fails with the parse error and mints nothing. *)
Theorem empty_file_is_not_first_run `{Transport} c w err :
  claims c = None → files w !! file c = Some (Regular [] None) →
  ParseToken [] = Fail err →
  readFile (file c) (State c w) = (Ret (Some []), State c w)
  ∧ Token (State c w) = (Fail (errors_Wrap err "failed to parse token"), State c w)
  ∧ ¬ mints w (world (Token (State c w)).2).
Proof.
  intros Hc Hf Hp.
  assert (HT : Token (State c w)
               = (Fail (errors_Wrap err "failed to parse token"), State c w)).
  { unfold Token. run. rewrite Hc. simpl.
    rewrite (readFile_regular _ _ []) by exact Hf. simpl. rewrite Hp. reflexivity. }
  split; [apply readFile_regular; exact Hf|]. split; [exact HT|].
  rewrite HT. unfold mints. simpl. lia.
Qed.

Lemma empty_file_is_not_first_run_witness :
  Token (State (Demo.fresh 100 (frozen 0)) (Demo.world_with []))
  = (Fail (errors_Wrap (errors_New "token contains an invalid number of segments")
             "failed to parse token"),
     State (Demo.fresh 100 (frozen 0)) (Demo.world_with [])).
Proof.
  exact (proj1 (proj2 (empty_file_is_not_first_run (Demo.fresh 100 (frozen 0))
                         (Demo.world_with [])
                         (errors_New "token contains an invalid number of segments")
                         eq_refl eq_refl eq_refl))).
Defined.

(** C7, as stated, fails: at a path where no file exists and none can be
    created (the parent directory is missing), [Token] returns the error of
    the write, and no file appears. *)
Lemma missing_file_unwritable_counterexample :
  files Demo.no_dir_world !! Demo.path = None
  ∧ (Token (State (Demo.fresh 100 (frozen 0)) Demo.no_dir_world)).1
    = Fail (errors_WithMessage ErrNotExist "failed to create new token")
  ∧ files (world (Token (State (Demo.fresh 100 (frozen 0)) Demo.no_dir_world)).2)
      !! Demo.path = None.
Proof. vm_compute. repeat split; reflexivity. Qed.

(** C7, amended. A missing file is not an error of the read path: when
    nothing is cached and no file exists, [Token] treats it as the first run
    and goes straight to the rotation. When the first record encodes and
    nothing is in the way of the write, [Token] succeeds, returns the new
    token, caches the first record and creates the file with the token in
    it. *)
Theorem missing_file_is_first_run `{Transport} c w jwtString :
  claims c = None → files w !! file c = None →
  SignedString {| IssuedAt := Some (next_reading (clock c));
                  ExpiresAt := Some (Int64.add (next_reading (clock c))
                                       (Int64.of_uint (refresh c)));
                  Subject := Some (uuids w (drawn w));
                  SequenceNo := Some 0;
                  Previous := Some "" |} = Ret jwtString →
  wfaults w !! file c = None →
  readFile (file c) (State c w) = (Ret None, State c w)
  ∧ Token (State c w) = rotate_and_return (State c w)
  ∧ (Token (State c w)).1 = Ret (Some (String.list_byte_of_string jwtString))
  ∧ claims (self (Token (State c w)).2)
    = Some {| IssuedAt := Some (next_reading (clock c));
              ExpiresAt := Some (Int64.add (next_reading (clock c))
                                   (Int64.of_uint (refresh c)));
              Subject := Some (uuids w (drawn w));
              SequenceNo := Some 0;
              Previous := Some "" |}
  ∧ files (world (Token (State c w)).2) !! file c
    = Some (Regular (String.list_byte_of_string jwtString) None).
Proof.
  intros Hc Hf Hs Hw.
  split; [apply readFile_missing; exact Hf|].
  split; [apply Token_first_run; assumption|].
  rewrite Token_first_run by assumption.
  unfold rotate_and_return. run. rewrite persistNewToken_unfold.
  unfold new_claims. rewrite Hc.
  erewrite commit_ok; [| exact Hs | simpl; intros msg; rewrite Hf; discriminate
                       | simpl; exact Hw].
  simpl. unfold read_fault. simpl. rewrite Hf, lookup_insert_eq. auto.
Qed.

Lemma missing_file_is_first_run_witness :
  (Token (State (Demo.fresh 100 (frozen 0)) Demo.empty_world)).1
  = Ret (Some Demo.tokenA)
  ∧ claims (self (Token (State (Demo.fresh 100 (frozen 0)) Demo.empty_world)).2)
    = Some Demo.recA
  ∧ files (world (Token (State (Demo.fresh 100 (frozen 0)) Demo.empty_world)).2)
      !! Demo.path = Some (Regular Demo.tokenA None).
Proof.
  pose proof (missing_file_is_first_run (Demo.fresh 100 (frozen 0)) Demo.empty_world
                (String.string_of_list_byte Demo.tokenA)
                eq_refl eq_refl eq_refl eq_refl) as (_ & _ & H1 & H2 & H3).
  exact (conj H1 (conj H2 H3)).
Defined.

(** ** The chain *)

(** C1, as stated, fails at the end of the int64 range: a client that loads
    a record with sequence number 2^63 - 1 and rotates mints a record with
    sequence number -2^63, not 2^63. *)
Lemma sequence_wraps_counterexample :
  held (Demo.fresh 100 (frozen 100)) (Demo.world_with Demo.token_last)
  = Some Demo.rec_last
  ∧ SequenceNo Demo.rec_last = Some 9223372036854775807
  ∧ claims (self (Token (State (Demo.fresh 100 (frozen 100))
                            (Demo.world_with Demo.token_last))).2)
    = Some {| IssuedAt := Some 100; ExpiresAt := Some 200; Subject := Some "uuid-B";
              SequenceNo := Some (-9223372036854775808);
              Previous := Some "uuid-Z" |}
  ∧ -9223372036854775808 ≠ 9223372036854775807 + 1.
Proof. vm_compute. repeat split; try reflexivity. discriminate. Qed.

(** C1, amended. Whenever [Token] mints a record, the new record is cached
    and chained to the record held at that moment, however long that one
    has been expired: its previous is the held record's subject and its
    sequence number is the held one plus one on int64, which is exactly
    plus one below 2^63 - 1 and -2^63 at 2^63 - 1. With no record held, the
    new record has sequence number 0 and previous "". *)
Theorem rotation_chains `{Transport} c w b s' :
  Token (State c w) = (Ret b, s') → mints w (world s') →
  ∃ nc, claims (self s') = Some nc
    ∧ match held c w with
      | None => SequenceNo nc = Some 0 ∧ Previous nc = Some ""
      | Some old =>
          ∃ seq sub, SequenceNo old = Some seq ∧ Subject old = Some sub
            ∧ Previous nc = Some sub
            ∧ SequenceNo nc = Some (Int64.add seq 1)
            ∧ (Int64.in_range seq → seq ≠ Int64.max → SequenceNo nc = Some (seq + 1))
            ∧ (seq = Int64.max → SequenceNo nc = Some Int64.min)
      end.
Proof.
  intros E Hm.
  destruct (Token_ret_mints c w b s' E Hm)
    as (c0 & now & nc & data & Hh & _ & _ & Hn & Hc & _).
  exists nc. split; [exact Hc|].
  apply new_claims_ret in Hn as (_ & _ & _ & Hchain).
  rewrite Hh in Hchain. destruct (held c w) as [old|]; [|exact Hchain].
  destruct Hchain as (seq & sub & Hs & Hp & Hseq & Hprev).
  exists seq, sub. repeat split; auto.
  - intros Hr Hne. rewrite Hseq. f_equal. apply add_exact.
    unfold Int64.in_range, Int64.max, Int64.min in *. lia.
  - intros ->. rewrite Hseq. f_equal.
Qed.

Lemma rotation_chains_witness :
  ∃ nc, claims (self (Token (State (Demo.cached (frozen 100))
                               (Demo.world_with Demo.tokenA))).2) = Some nc
    ∧ match held (Demo.cached (frozen 100)) (Demo.world_with Demo.tokenA) with
      | None => SequenceNo nc = Some 0 ∧ Previous nc = Some ""
      | Some old =>
          ∃ seq sub, SequenceNo old = Some seq ∧ Subject old = Some sub
            ∧ Previous nc = Some sub
            ∧ SequenceNo nc = Some (Int64.add seq 1)
            ∧ (Int64.in_range seq → seq ≠ Int64.max → SequenceNo nc = Some (seq + 1))
            ∧ (seq = Int64.max → SequenceNo nc = Some Int64.min)
      end.
Proof.
  eapply (rotation_chains (Demo.cached (frozen 100)) (Demo.world_with Demo.tokenA));
    vm_compute; reflexivity.
Defined.

(** C3, as stated, fails for a refresh interval that does not fit an int64:
    with refresh 2^63 and the clock at 0 the first record expires at -2^63,
    so that expiresAt - issuedAt is not the refresh interval. *)
Lemma huge_refresh_counterexample :
  claims (self (Token (State (Demo.fresh 9223372036854775808 (frozen 0))
                            Demo.empty_world)).2)
  = Some {| IssuedAt := Some 0; ExpiresAt := Some (-9223372036854775808);
            Subject := Some "uuid-A"; SequenceNo := Some 0; Previous := Some "" |}
  ∧ -9223372036854775808 - 0 ≠ Z.of_N 9223372036854775808.
Proof. vm_compute. split; [reflexivity | discriminate]. Qed.

(** C3, amended. For every refresh interval [r > 0] and every reading [now]
    of the clock with [now + r <= 2^63 - 1], the first record a client with
    nothing cached and no file mints has issuedAt = now,
    expiresAt - issuedAt = r, sequence number 0 and previous "". *)
Theorem first_record `{Transport} c w b s' :
  claims c = None → files w !! file c = None →
  Token (State c w) = (Ret b, s') →
  0 < Z.of_N (refresh c) →
  next_reading (clock c) + Z.of_N (refresh c) <= Int64.max →
  ∃ nc i e, claims (self s') = Some nc
    ∧ IssuedAt nc = Some i ∧ ExpiresAt nc = Some e
    ∧ i = next_reading (clock c) ∧ e - i = Z.of_N (refresh c)
    ∧ SequenceNo nc = Some 0 ∧ Previous nc = Some "".
Proof.
  intros Hc Hf E Hr Hov. rewrite Token_first_run in E by assumption.
  apply rotate_and_return_ret in E as (nc & data & Hn & Hcl & _).
  apply new_claims_ret in Hn as (Hi & He & _ & Hchain). rewrite Hc in Hchain.
  exists nc, (next_reading (clock c)),
    (next_reading (clock c) + Z.of_N (refresh c)).
  rewrite add_of_uint_exact in He by (auto using next_reading_range).
  destruct Hchain. repeat split; auto. lia.
Qed.

Lemma first_record_witness :
  ∃ nc i e,
    claims (self (Token (State (Demo.fresh 100 (frozen 0)) Demo.empty_world)).2)
    = Some nc
    ∧ IssuedAt nc = Some i ∧ ExpiresAt nc = Some e
    ∧ i = next_reading (clock (Demo.fresh 100 (frozen 0)))
    ∧ e - i = Z.of_N (refresh (Demo.fresh 100 (frozen 0)))
    ∧ SequenceNo nc = Some 0 ∧ Previous nc = Some "".
Proof.
  eapply (first_record (Demo.fresh 100 (frozen 0)) Demo.empty_world);
    vm_compute; try reflexivity; discriminate.
Defined.

(** C9, as stated, fails for the refresh interval 0, which [New] accepts:
    the record expires at the second it is issued. *)
Lemma zero_refresh_counterexample :
  claims (self (Token (State (Demo.fresh 0 (frozen 0)) Demo.empty_world)).2)
  = Some {| IssuedAt := Some 0; ExpiresAt := Some 0; Subject := Some "uuid-A";
            SequenceNo := Some 0; Previous := Some "" |}
  ∧ ¬ (0 < 0).
Proof. vm_compute. split; [reflexivity | discriminate]. Qed.

(** C9, amended. Every record [Token] mints expires at its issuedAt plus the
    refresh interval on int64; when the interval [r] is positive and
    issuedAt + r <= 2^63 - 1, that is issuedAt + r exactly, strictly after
    issuedAt. *)
Theorem minted_record_expires_later `{Transport} c w b s' :
  Token (State c w) = (Ret b, s') → mints w (world s') →
  ∃ nc i e, claims (self s') = Some nc
    ∧ IssuedAt nc = Some i ∧ ExpiresAt nc = Some e
    ∧ e = Int64.add i (Int64.of_uint (refresh c))
    ∧ (0 < Z.of_N (refresh c) → i + Z.of_N (refresh c) <= Int64.max →
       e = i + Z.of_N (refresh c) ∧ i < e).
Proof.
  intros E Hm.
  destruct (Token_ret_mints c w b s' E Hm)
    as (c0 & now & nc & data & _ & Hr & Hrange & Hn & Hc & _).
  apply new_claims_ret in Hn as (Hi & He & _). rewrite Hr in He.
  exists nc, now, (Int64.add now (Int64.of_uint (refresh c))).
  repeat split; auto.
  - apply add_of_uint_exact; assumption.
  - rewrite add_of_uint_exact by assumption. lia.
Qed.

Lemma minted_record_expires_later_witness :
  ∃ nc i e,
    claims (self (Token (State (Demo.cached (frozen 100))
                            (Demo.world_with Demo.tokenA))).2) = Some nc
    ∧ IssuedAt nc = Some i ∧ ExpiresAt nc = Some e
    ∧ e = Int64.add i (Int64.of_uint (refresh (Demo.cached (frozen 100))))
    ∧ (0 < Z.of_N (refresh (Demo.cached (frozen 100))) →
       i + Z.of_N (refresh (Demo.cached (frozen 100))) <= Int64.max →
       e = i + Z.of_N (refresh (Demo.cached (frozen 100))) ∧ i < e).
Proof.
  eapply (minted_record_expires_later (Demo.cached (frozen 100))
            (Demo.world_with Demo.tokenA));
    vm_compute; reflexivity.
Defined.

(** ** Failure and restart *)


(** Whenever [Token] returns an error, whatever its cause, the cache holds
    the record [held] at the decision and never a new one. *)
Lemma Token_error_keeps_held `{Transport} c w err s' :
  Token (State c w) = (Fail err, s') →
  claims (self s') = held c w
  ∧ (claims c ≠ None ∨ held c w = None →
     claims (self s') = claims c ∧ jwt (self s') = jwt c)
  ∧ (claims c = None → held c w ≠ None →
     ∃ data, files w !! file c = Some (Regular data None) ∧ jwt (self s') = Some data).
Proof.
  intros E. unfold held. destruct (claims c) as [cl|] eqn:Hc.
  - destruct (Token_cached_fail c w cl err s' Hc E) as [H1 H2].
    rewrite Hc in H1. repeat split; auto; try congruence.
  - rewrite (Token_uncached c w Hc) in E.
    destruct (files w !! file c) as [[data [msg|]|msg]|] eqn:Hf.
    + inversion E; subst. simpl. repeat split; auto; congruence.
    + destruct (ParseToken data) as [[token cl]|e|]; [| |discriminate].
      * destruct (Valid token).
        -- destruct (Token_cached_fail (set_claims (Some cl) (set_jwt (Some data) c))
                       w cl err s' eq_refl E) as [H1 H2].
           simpl in *. split; [exact H1|]. split.
           ++ intros [Hn|Hn]; congruence.
           ++ intros _ _. exists data. auto.
        -- inversion E; subst. simpl. repeat split; auto; congruence.
      * inversion E; subst. simpl. repeat split; auto; congruence.
    + inversion E; subst. simpl. repeat split; auto; congruence.
    + destruct (rotate_and_return_fail c w err s' E) as [H1 H2].
      rewrite Hc in H1. repeat split; auto; congruence.
Qed.

Section RotationStart.
Context `{Transport}.



(** [rotation_start] misses no case: without it, [Token] does not rotate
    and the world stays as it was. *)
Lemma rotation_start_none c w :
  rotation_start c w = None → world (Token (State c w)).2 = w.
Proof.
  assert (Hst : ∀ c1 cl, claims c1 = Some cl → stale_start c1 cl = None →
            world (Token (State c1 w)).2 = w).
  { intros c1 cl Hc1. unfold stale_start. rewrite (Token_cached c1 w cl Hc1).
    destruct (ExpiresAt cl) as [e|]; [|reflexivity].
    destruct (e <=? next_reading (clock c1)); [discriminate|reflexivity]. }
  unfold rotation_start. destruct (claims c) as [cl|] eqn:Hc.
  - apply Hst. exact Hc.
  - rewrite (Token_uncached c w Hc).
    destruct (files w !! file c) as [[data [msg|]|msg]|]; try reflexivity;
      try discriminate.
    destruct (ParseToken data) as [[token cl]|e|]; try reflexivity.
    destruct (Valid token); [|reflexivity].
    apply Hst. reflexivity.
Qed.

End RotationStart.



(** C5. Persistence round trip. After a first client has minted and
    persisted a record at a path that was absent or readable, a second
    client constructed on the same file, whose clock has not reached the
    record's expiry, holds the same record and the same bytes, provided the
    codec decodes the persisted token to that record; the world is left as
    it was (no record is minted, the file is not rewritten), and a further
    [Token] call before the expiry returns those bytes. *)
Theorem persisted_record_is_reloaded `{Transport}
    c1 w b s1 nc bytes token e r2 clk2 w2 :
  Token (State c1 w) = (Ret b, s1) → mints w (world s1) →
  read_fault w (file c1) = None →
  claims (self s1) = Some nc → jwt (self s1) = Some bytes →
  ParseToken bytes = Ret (token, nc) → Valid token = true →
  ExpiresAt nc = Some e → next_reading clk2 < e →
  files w2 !! file c1 = files (world s1) !! file c1 →
  files (world s1) !! file c1 = Some (Regular bytes None)
  ∧ newWithClock (file c1) r2 clk2 w2
    = (Ret {| file := file c1; refresh := r2; claims := Some nc;
              jwt := Some bytes; clock := tick clk2 |}, w2)
  ∧ (next_reading (tick clk2) < e →
     Token (State {| file := file c1; refresh := r2; claims := Some nc;
                     jwt := Some bytes; clock := tick clk2 |} w2)
     = (Ret (Some bytes),
        State {| file := file c1; refresh := r2; claims := Some nc;
                 jwt := Some bytes; clock := tick (tick clk2) |} w2)).
Proof.
  intros E Hm Hr Hc Hj Hp Hv He Hlt Hsame.
  destruct (Token_ret_mints c1 w b s1 E Hm)
    as (c0 & now & nc' & data & _ & _ & _ & _ & _ & _ & Hj' & Hf).
  rewrite Hj in Hj'. injection Hj' as <-. rewrite Hr in Hf.
  split; [exact Hf|]. split.
  - unfold newWithClock. rewrite Token_uncached by reflexivity. simpl.
    rewrite Hsame, Hf, Hp, Hv.
    rewrite (Token_cached_live _ w2 nc e) by (simpl; auto). reflexivity.
  - intros Hlt2.
    rewrite (Token_cached_live _ w2 nc e) by (simpl; auto). reflexivity.
Qed.

Lemma persisted_record_is_reloaded_witness :
  newWithClock Demo.path 100 (frozen 50)
    (world (Token (State (Demo.fresh 100 (frozen 0)) Demo.empty_world)).2)
  = (Ret {| file := Demo.path; refresh := 100; claims := Some Demo.recA;
            jwt := Some Demo.tokenA; clock := tick (frozen 50) |},
     world (Token (State (Demo.fresh 100 (frozen 0)) Demo.empty_world)).2).
Proof.
  refine (proj1 (proj2 (persisted_record_is_reloaded
            (Demo.fresh 100 (frozen 0)) Demo.empty_world (Some Demo.tokenA)
            (Token (State (Demo.fresh 100 (frozen 0)) Demo.empty_world)).2
            Demo.recA Demo.tokenA {| Valid := true |} 100 100 (frozen 50)
            (world (Token (State (Demo.fresh 100 (frozen 0)) Demo.empty_world)).2)
            _ _ _ _ _ _ _ _ _ _))); vm_compute; reflexivity.
Defined.


(** * Further properties of client.go *)

(** ** Reading the file *)

(** X1. [readFile] gives nil without an error exactly for a path at which
    nothing exists, and it changes neither the client nor the world. *)
Theorem readFile_nil_iff_missing name s :
  ((readFile name s).1 = Ret None ↔ files (world s) !! name = None)
  ∧ (readFile name s).2 = s.
Proof.
  split; [|apply readFile_state].
  destruct (files (world s) !! name) as [[data [msg|]|msg]|] eqn:Hf.
  - rewrite (readFile_unreadable _ _ data msg Hf). simpl. split; discriminate.
  - rewrite (readFile_regular _ _ data Hf). simpl. split; discriminate.
  - rewrite (readFile_nostat _ _ msg Hf). simpl. split; discriminate.
  - rewrite (readFile_missing _ _ Hf). simpl. split; reflexivity.
Qed.

(** X2. A file that is there but cannot be read is not a first run. When
    nothing is cached and [os.Stat] fails with an error other than "not
    exist", or reading the file fails, [Token] and the constructor return
    that error wrapped as "failed to read token file", and client and world
    stay as they were: nothing is minted and the file is not replaced. *)
Theorem read_failure_is_fatal `{Transport} c w msg :
  claims c = None →
  (files w !! file c = Some (NoStat msg)
   ∨ ∃ data, files w !! file c = Some (Regular data (Some msg))) →
  Token (State c w)
  = (Fail (errors_Wrap (ErrOS msg) "failed to read token file"), State c w)
  ∧ (∀ r clk, newWithClock (file c) r clk w
              = (Fail (errors_Wrap (ErrOS msg) "failed to read token file"), w)).
Proof.
  intros Hc Hf.
  assert (Hrun : ∀ c', claims c' = None → file c' = file c →
            Token (State c' w)
            = (Fail (errors_Wrap (ErrOS msg) "failed to read token file"), State c' w)).
  { intros c' Hc' Hfile. rewrite (Token_uncached c' w Hc'). rewrite Hfile.
    destruct Hf as [Hf|[data Hf]]; rewrite Hf; reflexivity. }
  split; [apply Hrun; auto|].
  intros r clk. unfold newWithClock. rewrite Hrun; reflexivity.
Qed.

Lemma read_failure_is_fatal_witness :
  Token (State (Demo.fresh 100 (frozen 0)) Faults.unreadable_world)
  = (Fail (errors_Wrap (ErrOS "permission denied") "failed to read token file"),
     State (Demo.fresh 100 (frozen 0)) Faults.unreadable_world).
Proof.
  refine (proj1 (read_failure_is_fatal (Demo.fresh 100 (frozen 0))
                   Faults.unreadable_world "permission denied" eq_refl _)).
  right. exists Demo.tokenA. reflexivity.
Defined.

(** ** The errors of [Token] *)

(** X3. [Token] fails in four ways only. The three errors of the read path
    ("failed to read token file", "failed to parse token", "failed to read
    token") occur only with nothing cached and leave client and world as
    they were; an error "failed to create new token" means a rotation was
    attempted: one identifier was drawn. *)
Theorem Token_error_classes `{Transport} c w err s' :
  Token (State c w) = (Fail err, s') →
  (∃ cause, err = errors_Wrap cause "failed to read token file"
            ∧ claims c = None ∧ s' = State c w)
  ∨ (∃ cause, err = errors_Wrap cause "failed to parse token"
              ∧ claims c = None ∧ s' = State c w)
  ∨ (err = errors_New "failed to read token" ∧ claims c = None ∧ s' = State c w)
  ∨ (∃ cause, err = errors_WithMessage cause "failed to create new token"
              ∧ mints w (world s')).
Proof.
  assert (Hrot : ∀ c0 w0, rotate_and_return (State c0 w0) = (Fail err, s') →
            ∃ cause, err = errors_WithMessage cause "failed to create new token"
                     ∧ mints w0 (world s')).
  { intros c0 w0. rewrite rotate_and_return_unfold.
    pose proof (persistNewToken_draws c0 w0) as [Hd _].
    destruct (persistNewToken (State c0 w0)) as [[u|e|] s1]; simpl in *;
      intros E; inversion E; subst. exists e. auto. }
  assert (Hcached : ∀ c0 cl, claims c0 = Some cl →
            Token (State c0 w) = (Fail err, s') →
            ∃ cause, err = errors_WithMessage cause "failed to create new token"
                     ∧ mints w (world s')).
  { intros c0 cl Hc0. rewrite (Token_cached c0 w cl Hc0).
    destruct (ExpiresAt cl) as [e|]; [|discriminate].
    destruct (e <=? next_reading (clock c0)); [|discriminate].
    apply Hrot. }
  destruct (claims c) as [cl|] eqn:Hc.
  - intros E. right. right. right. apply (Hcached c cl Hc E).
  - rewrite (Token_uncached c w Hc).
    destruct (files w !! file c) as [[data [msg|]|msg]|].
    + intros E. inversion E; subst. left. eauto.
    + destruct (ParseToken data) as [[token cl]|e|]; [| |discriminate].
      * destruct (Valid token).
        -- intros E. right. right. right.
           apply (Hcached (set_claims (Some cl) (set_jwt (Some data) c)) cl eq_refl E).
        -- intros E. inversion E; subst. right. right. left. auto.
      * intros E. inversion E; subst. right. left. eauto.
    + intros E. inversion E; subst. left. eauto.
    + intros E. right. right. right. apply (Hrot c w E).
Qed.

Lemma Token_error_classes_witness :
  ∃ cause,
    errors_WithMessage ErrNotExist "failed to create new token"
    = errors_WithMessage cause "failed to create new token"
    ∧ mints Demo.no_dir_world
        (world (Token (State (Demo.fresh 100 (frozen 0)) Demo.no_dir_world)).2).
Proof.
  assert (E0 : Token (State (Demo.fresh 100 (frozen 0)) Demo.no_dir_world)
               = (Fail (errors_WithMessage ErrNotExist "failed to create new token"),
                  (Token (State (Demo.fresh 100 (frozen 0)) Demo.no_dir_world)).2))
    by (vm_compute; reflexivity).
  destruct (Token_error_classes (Demo.fresh 100 (frozen 0)) Demo.no_dir_world
              (errors_WithMessage ErrNotExist "failed to create new token")
              (Token (State (Demo.fresh 100 (frozen 0)) Demo.no_dir_world)).2
              E0) as [(cause & E & _)|[(cause & E & _)|[(E & _)|Hw]]];
    [discriminate E | discriminate E | discriminate E | exact Hw].
Defined.

(** ** What [Token] leaves alone *)

Lemma WriteFile_framed c w data :
  framed c w (ioutil_WriteFile (file c) data (State c w)).2.
Proof.
  unfold framed, ioutil_WriteFile. simpl.
  destruct (files w !! file c) as [[d r|msg]|];
    destruct (wfaults w !! file c) as [[err|n err]|]; simpl;
    repeat split; auto; intros p Hp; by rewrite lookup_insert_ne.
Qed.

Lemma framed_trans c w c1 w1 s' :
  file c1 = file c → refresh c1 = refresh c →
  wfaults w1 = wfaults w → uuids w1 = uuids w → files w1 = files w →
  framed c1 w1 s' → framed c w s'.
Proof.
  unfold framed. intros Hf Hr Hw Hu Hfs (H1 & H2 & H3 & H4 & H5).
  rewrite <- Hf, <- Hr, <- Hw, <- Hu, <- Hfs. auto.
Qed.

Lemma framed_refl c w : framed c w (State c w).
Proof. unfold framed. simpl. auto. Qed.

Section Frames.
Context `{Transport}.

Lemma commit_framed c w nc : framed c w (commit (file c) nc (State c w)).2.
Proof.
  unfold commit. destruct (SignedString nc) as [js| |]; try apply framed_refl.
  pose proof (WriteFile_framed c w (String.list_byte_of_string js)) as Hw.
  destruct (ioutil_WriteFile _ _ _) as [[u|e|] s1]; exact Hw.
Qed.

Lemma persistNewToken_framed c w : framed c w (persistNewToken (State c w)).2.
Proof.
  rewrite persistNewToken_unfold.
  apply (framed_trans c w (set_clock (tick (clock c)) c) (set_drawn (S (drawn w)) w));
    try reflexivity.
  destruct (new_claims _ _ _) as [nc| |]; try apply framed_refl.
  apply (commit_framed (set_clock (tick (clock c)) c) (set_drawn (S (drawn w)) w) nc).
Qed.

Lemma rotate_and_return_framed c w : framed c w (rotate_and_return (State c w)).2.
Proof.
  rewrite rotate_and_return_unfold. pose proof (persistNewToken_framed c w) as Hp.
  destruct (persistNewToken (State c w)) as [[u|e|] s1]; exact Hp.
Qed.

Lemma Token_cached_framed c w cl :
  claims c = Some cl → framed c w (Token (State c w)).2.
Proof.
  intros Hc. rewrite (Token_cached c w cl Hc).
  destruct (ExpiresAt cl) as [e|]; [|apply (framed_refl (set_clock _ c))].
  destruct (e <=? next_reading (clock c)); [|apply (framed_refl (set_clock _ c))].
  apply (framed_trans c w (set_clock (tick (clock c)) c) w); try reflexivity.
  apply rotate_and_return_framed.
Qed.

(** The world changes only in a rotation. *)
Lemma Token_cached_world c w cl :
  claims c = Some cl →
  world (Token (State c w)).2 = w ∨ mints w (world (Token (State c w)).2).
Proof.
  intros Hc. rewrite (Token_cached c w cl Hc).
  destruct (ExpiresAt cl) as [e|]; [|left; reflexivity].
  destruct (e <=? next_reading (clock c)); [|left; reflexivity].
  right. apply rotate_and_return_draws.
Qed.
End Frames.

Lemma Token_framed `{Transport} c w : framed c w (Token (State c w)).2.
Proof.
  destruct (claims c) as [cl|] eqn:Hc.
  - apply (Token_cached_framed c w cl Hc).
  - rewrite (Token_uncached c w Hc).
    destruct (files w !! file c) as [[data [msg|]|msg]|]; try apply framed_refl.
    + destruct (ParseToken data) as [[token cl]|e|]; try apply framed_refl.
      destruct (Valid token); [|apply framed_refl].
      apply (framed_trans c w (set_claims (Some cl) (set_jwt (Some data) c)) w);
        try reflexivity.
      apply (Token_cached_framed _ w cl). reflexivity.
    + apply rotate_and_return_framed.
Qed.

Lemma Token_touches_nothing_else `{Transport} c w :
  file (self (Token (State c w)).2) = file c
  ∧ refresh (self (Token (State c w)).2) = refresh c.
Proof. destruct (Token_framed c w) as (H1 & H2 & _). auto. Qed.

(** X4. [Token] touches no file but its own and keeps the client's
    configuration: whatever its outcome, the path and the refresh interval
    of the client are as before, and every other path holds what it held. *)
Theorem Token_touches_only_its_file `{Transport} c w :
  file (self (Token (State c w)).2) = file c
  ∧ refresh (self (Token (State c w)).2) = refresh c
  ∧ ∀ p, p ≠ file c → files (world (Token (State c w)).2) !! p = files w !! p.
Proof.
  destruct (Token_framed c w) as (H1 & H2 & _ & _ & H5). auto.
Qed.

(** X5. [Token] writes only when it rotates: whatever its outcome, either
    the world is exactly as before (reading the file, loading it into the
    cache and returning cached bytes change nothing outside the client), or
    a record was minted. *)
Theorem Token_writes_only_in_rotation `{Transport} c w :
  world (Token (State c w)).2 = w ∨ mints w (world (Token (State c w)).2).
Proof.
  destruct (claims c) as [cl|] eqn:Hc.
  - apply (Token_cached_world c w cl Hc).
  - rewrite (Token_uncached c w Hc).
    destruct (files w !! file c) as [[data [msg|]|msg]|]; try (left; reflexivity).
    + destruct (ParseToken data) as [[token cl]|e|]; try (left; reflexivity).
      destruct (Valid token); [|left; reflexivity].
      apply (Token_cached_world (set_claims (Some cl) (set_jwt (Some data) c)) w cl).
      reflexivity.
    + right. apply rotate_and_return_draws.
Qed.

(** ** Rotation on a client that holds a record *)

Section Rotation.
Context `{Transport}.

(** [Token] on a stale cached record is the second half of the rotation,
    run on the chained record. *)
Lemma Token_stale_commit c w old e seq sub :
  claims c = Some old → ExpiresAt old = Some e →
  SequenceNo old = Some seq → Subject old = Some sub →
  e <= next_reading (clock c) →
  Token (State c w) =
  match commit (file c)
          (chained (next_reading (tick (clock c))) (refresh c) (uuids w (drawn w)) seq sub)
          (minting (set_clock (tick (clock c)) c) w) with
  | (Ret _, s') => (Ret (jwt (self s')), s')
  | (Fail err, s') => (Fail (errors_WithMessage err "failed to create new token"), s')
  | (Panic, s') => (Panic, s')
  end.
Proof.
  intros Hc He Hs Hp Hle.
  rewrite (Token_cached_stale c w old e Hc He Hle).
  rewrite rotate_and_return_unfold, persistNewToken_unfold.
  unfold new_claims. simpl. rewrite Hc, Hs, Hp. reflexivity.
Qed.
End Rotation.

(** X6. A rotation goes through whenever the new record encodes and
    nothing is in the way of the write, also when the token file was
    deleted in the meantime: for a client whose cached record is stale,
    [Token] returns the encoding of the record chained to the cached one,
    caches record and bytes, and leaves exactly these bytes in the file. *)
Theorem stale_rotation_succeeds `{Transport} c w old e seq sub jwtString :
  claims c = Some old → ExpiresAt old = Some e →
  SequenceNo old = Some seq → Subject old = Some sub →
  e <= next_reading (clock c) →
  SignedString (chained (next_reading (tick (clock c))) (refresh c)
                  (uuids w (drawn w)) seq sub) = Ret jwtString →
  (∀ msg, files w !! file c ≠ Some (NoStat msg)) →
  wfaults w !! file c = None →
  (Token (State c w)).1 = Ret (Some (String.list_byte_of_string jwtString))
  ∧ claims (self (Token (State c w)).2)
    = Some (chained (next_reading (tick (clock c))) (refresh c)
              (uuids w (drawn w)) seq sub)
  ∧ jwt (self (Token (State c w)).2) = Some (String.list_byte_of_string jwtString)
  ∧ files (world (Token (State c w)).2) !! file c
    = Some (Regular (String.list_byte_of_string jwtString) (read_fault w (file c))).
Proof.
  intros Hc He Hs Hp Hle Hsig Hf Hw.
  rewrite (Token_stale_commit c w old e seq sub) by assumption.
  erewrite commit_ok; [| exact Hsig | exact Hf | exact Hw].
  simpl. rewrite lookup_insert_eq. auto.
Qed.

Lemma stale_rotation_succeeds_witness :
  (Token (State (Demo.cached (frozen 100)) Faults.deleted_world)).1
  = Ret (Some Faults.tokenB)
  ∧ claims (self (Token (State (Demo.cached (frozen 100)) Faults.deleted_world)).2)
    = Some Faults.recB.
Proof.
  pose proof (stale_rotation_succeeds (Demo.cached (frozen 100)) Faults.deleted_world
                Demo.recA 100 0 "uuid-A" (String.string_of_list_byte Faults.tokenB)
                eq_refl eq_refl eq_refl eq_refl) as Hw.
  destruct Hw as (H1 & H2 & _).
  - vm_compute. discriminate.
  - vm_compute. reflexivity.
  - intros msg. vm_compute. discriminate.
  - reflexivity.
  - split.
    + etransitivity; [exact H1 | vm_compute; reflexivity].
    + etransitivity; [exact H2 | vm_compute; reflexivity].
Defined.

(** X7. The file is written in place, so a write that fails half way loses
    the persisted token: when the file was opened and truncated and only
    the first [n] bytes of the new token were written, [Token] returns the
    error of the write, the cache keeps the old record and bytes, and the
    file holds the [n]-byte prefix of the new token instead of the old one. *)
Theorem short_write_truncates_file `{Transport}
    c w old e seq sub jwtString data rerr n err :
  claims c = Some old → ExpiresAt old = Some e →
  SequenceNo old = Some seq → Subject old = Some sub →
  e <= next_reading (clock c) →
  SignedString (chained (next_reading (tick (clock c))) (refresh c)
                  (uuids w (drawn w)) seq sub) = Ret jwtString →
  files w !! file c = Some (Regular data rerr) →
  wfaults w !! file c = Some (ShortWrite n err) →
  (Token (State c w)).1 = Fail (errors_WithMessage err "failed to create new token")
  ∧ claims (self (Token (State c w)).2) = Some old
  ∧ jwt (self (Token (State c w)).2) = jwt c
  ∧ files (world (Token (State c w)).2) !! file c
    = Some (Regular (take n (String.list_byte_of_string jwtString)) rerr).
Proof.
  intros Hc He Hs Hp Hle Hsig Hf Hw.
  rewrite (Token_stale_commit c w old e seq sub) by assumption.
  unfold commit. rewrite Hsig. unfold ioutil_WriteFile, read_fault. simpl.
  rewrite Hf, Hw. simpl. rewrite lookup_insert_eq. auto.
Qed.

Lemma short_write_truncates_file_witness :
  (Token (State (Demo.cached (frozen 100)) Faults.disk_full_world)).1
  = Fail (errors_WithMessage (ErrOS "no space left on device")
            "failed to create new token")
  ∧ claims (self (Token (State (Demo.cached (frozen 100)) Faults.disk_full_world)).2)
    = Some Demo.recA
  ∧ files (world (Token (State (Demo.cached (frozen 100)) Faults.disk_full_world)).2)
      !! Demo.path
    = Some (Regular (take 10 Faults.tokenB) None).
Proof.
  pose proof (short_write_truncates_file (Demo.cached (frozen 100))
                Faults.disk_full_world Demo.recA 100 0 "uuid-A"
                (String.string_of_list_byte Faults.tokenB) Demo.tokenA None 10
                (ErrOS "no space left on device")
                eq_refl eq_refl eq_refl eq_refl) as Hw.
  destruct Hw as (H1 & H2 & _ & H4).
  - vm_compute. discriminate.
  - vm_compute. reflexivity.
  - reflexivity.
  - reflexivity.
  - split; [exact H1|]. split; [exact H2|].
    etransitivity; [exact H4 | vm_compute; reflexivity].
Defined.

(** ** Construction *)

Section Construction.
Context `{Transport}.

(** A rotation that succeeds caches the encoding of the record it caches. *)
Lemma rotate_and_return_encoded c w b s' :
  rotate_and_return (State c w) = (Ret b, s') →
  ∃ nc jwtString,
    SignedString nc = Ret jwtString
    ∧ claims (self s') = Some nc
    ∧ b = Some (String.list_byte_of_string jwtString)
    ∧ jwt (self s') = Some (String.list_byte_of_string jwtString)
    ∧ files (world s') !! file c
      = Some (Regular (String.list_byte_of_string jwtString) (read_fault w (file c))).
Proof.
  rewrite rotate_and_return_unfold.
  destruct (persistNewToken (State c w)) as [[u|e|] s1] eqn:E; simpl;
    intros E'; inversion E'; subst.
  apply persistNewToken_ret in E as (nc & js & _ & Hs & Hc & Hj & Hf).
  exists nc, js. rewrite Hj. auto.
Qed.

(** What a successful [Token] leaves, for a client that holds a record. *)
Lemma Token_cached_coherent c w cl data b s' :
  claims c = Some cl → jwt c = Some data →
  files w !! file c = Some (Regular data None) → belongs cl data →
  Token (State c w) = (Ret b, s') →
  ∃ cl' data' rerr,
    claims (self s') = Some cl' ∧ jwt (self s') = Some data' ∧ b = Some data'
    ∧ files (world s') !! file c = Some (Regular data' rerr) ∧ belongs cl' data'.
Proof.
  intros Hc Hj Hf Hb. rewrite (Token_cached c w cl Hc).
  destruct (ExpiresAt cl) as [e|]; [|discriminate].
  destruct (e <=? next_reading (clock c)).
  - intros E. apply rotate_and_return_encoded in E as (nc & js & Hs & Hc' & -> & Hj' & Hf').
    exists nc, (String.list_byte_of_string js), (read_fault w (file c)).
    simpl in Hf'. repeat split; auto. right. exists js. auto.
  - intros E. inversion E; subst. simpl. exists cl, data, None. auto.
Qed.
End Construction.

(** X8. A constructor that succeeds leaves the token on disk and a coherent
    client: the client holds a record and bytes, the file at its path holds
    exactly these bytes, and the bytes belong to the record (they were
    decoded to it from the file, or they are the encoding of the record
    just minted). *)
Theorem construction_leaves_token_on_disk `{Transport} tokenFile r clk w c' w' :
  newWithClock tokenFile r clk w = (Ret c', w') →
  file c' = tokenFile ∧ refresh c' = r
  ∧ ∃ cl data rerr,
      claims c' = Some cl ∧ jwt c' = Some data
      ∧ files w' !! tokenFile = Some (Regular data rerr)
      ∧ belongs cl data.
Proof.
  unfold newWithClock.
  set (c := {| file := tokenFile; refresh := r; claims := None; jwt := None;
               clock := clk |}).
  pose proof (Token_touches_nothing_else c w) as (Hfile & Hrefresh).
  destruct (Token (State c w)) as [[b|e|] s'] eqn:E; try discriminate.
  intros E'. inversion E'; subst. simpl in Hfile, Hrefresh.
  split; [exact Hfile|]. split; [exact Hrefresh|].
  rewrite (Token_uncached c w eq_refl) in E. simpl in E.
  destruct (files w !! tokenFile) as [[data [msg|]|msg]|] eqn:Hf; try discriminate.
  - destruct (ParseToken data) as [[token cl]|e|] eqn:Hp; try discriminate.
    destruct (Valid token) eqn:Hv; [|discriminate].
    destruct (Token_cached_coherent (set_claims (Some cl) (set_jwt (Some data) c))
                w cl data b s' eq_refl eq_refl Hf) as (cl' & d' & rerr & H1 & H2 & _ & H4 & H5);
      [left; exists token; auto | exact E |].
    exists cl', d', rerr. auto.
  - apply rotate_and_return_encoded in E as (nc & js & Hs & Hc' & _ & Hj' & Hf').
    exists nc, (String.list_byte_of_string js), (read_fault w tokenFile).
    simpl in Hf'. repeat split; auto. right. exists js. auto.
Qed.

Lemma construction_leaves_token_on_disk_witness :
  ∃ cl data rerr,
    claims (Demo.cached (tick (frozen 50))) = Some cl
    ∧ jwt (Demo.cached (tick (frozen 50))) = Some data
    ∧ files (Demo.world_with Demo.tokenA) !! Demo.path = Some (Regular data rerr)
    ∧ belongs cl data.
Proof.
  refine (proj2 (proj2 (construction_leaves_token_on_disk Demo.path 100 (frozen 50)
                          (Demo.world_with Demo.tokenA)
                          (Demo.cached (tick (frozen 50)))
                          (Demo.world_with Demo.tokenA) _))).
  vm_compute. reflexivity.
Defined.

(** ** Panics *)

Section Panics.
Context `{Transport}.

Lemma commit_panic name nc s s' :
  commit name nc s = (Panic, s') → SignedString nc = Panic.
Proof.
  unfold commit. destruct (SignedString nc) as [js| |]; try discriminate; auto.
  unfold ioutil_WriteFile. simpl.
  destruct (files (world s) !! name) as [[d r|msg]|];
    destruct (wfaults (world s) !! name) as [[err|n err]|]; simpl; discriminate.
Qed.

Lemma rotate_and_return_panic c w s' :
  rotate_and_return (State c w) = (Panic, s') →
  (∃ cl, SignedString cl = Panic)
  ∨ (∃ cl, claims c = Some cl ∧ (SequenceNo cl = None ∨ Subject cl = None)).
Proof.
  rewrite rotate_and_return_unfold, persistNewToken_unfold. unfold new_claims.
  destruct (claims c) as [old|].
  - destruct (SequenceNo old) as [seq|] eqn:Hseq; [|intros _; right; exists old; auto].
    destruct (Subject old) as [sub|] eqn:Hsub; [|intros _; right; exists old; auto].
    destruct (commit _ _ _) as [[u|e|] s1] eqn:E; try discriminate.
    intros _. left. apply commit_panic in E. eauto.
  - destruct (commit _ _ _) as [[u|e|] s1] eqn:E; try discriminate.
    intros _. left. apply commit_panic in E. eauto.
Qed.

Lemma Token_cached_panic c w cl s' :
  claims c = Some cl → Token (State c w) = (Panic, s') →
  (∃ cl', SignedString cl' = Panic)
  ∨ ExpiresAt cl = None ∨ SequenceNo cl = None ∨ Subject cl = None.
Proof.
  intros Hc. rewrite (Token_cached c w cl Hc).
  destruct (ExpiresAt cl) as [e|]; [|auto].
  destruct (e <=? next_reading (clock c)); [|discriminate].
  intros E. apply rotate_and_return_panic in E as [Hs|(cl' & Hc' & Hn)]; [auto|].
  simpl in Hc'. rewrite Hc in Hc'. injection Hc' as <-. tauto.
Qed.
End Panics.

(** X9. [Token] dereferences three fields of the record it holds, without a
    nil check: a held record without an expiry makes it panic, and it
    panics only when the held record lacks its expiry, sequence number or
    subject (or the codec itself panics). A record without issuedAt or
    previous is harmless. *)
Theorem Token_panics_only_on_nil_field `{Transport} c w :
  (∀ cl, held c w = Some cl → ExpiresAt cl = None → (Token (State c w)).1 = Panic)
  ∧ (∀ s', Token (State c w) = (Panic, s') →
       (∃ data, ParseToken data = Panic) ∨ (∃ cl, SignedString cl = Panic)
       ∨ (∃ cl, held c w = Some cl
                ∧ (ExpiresAt cl = None ∨ SequenceNo cl = None ∨ Subject cl = None))).
Proof.
  split.
  - intros cl. unfold held. destruct (claims c) as [cl0|] eqn:Hc.
    + intros [= ->] He. rewrite (Token_cached c w cl Hc), He. reflexivity.
    + rewrite (Token_uncached c w Hc).
      destruct (files w !! file c) as [[data [msg|]|msg]|]; try discriminate.
      destruct (ParseToken data) as [[token cl0]|e|]; try discriminate.
      destruct (Valid token); [|discriminate].
      intros [= ->] He.
      rewrite (Token_cached (set_claims (Some cl) (set_jwt (Some data) c)) w cl eq_refl).
      rewrite He. reflexivity.
  - intros s'. unfold held. destruct (claims c) as [cl0|] eqn:Hc.
    + intros E. apply (Token_cached_panic c w cl0 s' Hc) in E as [Hs|Hn]; [auto|].
      right. right. exists cl0. auto.
    + rewrite (Token_uncached c w Hc).
      destruct (files w !! file c) as [[data [msg|]|msg]|]; try discriminate.
      * destruct (ParseToken data) as [[token cl0]|e|] eqn:Hp; try discriminate.
        -- destruct (Valid token); [|discriminate].
           intros E.
           apply (Token_cached_panic (set_claims (Some cl0) (set_jwt (Some data) c))
                    w cl0 s' eq_refl) in E as [Hs|Hn]; [auto|].
           right. right. exists cl0. auto.
        -- intros _. left. eauto.
      * intros E. apply rotate_and_return_panic in E as [Hs|(cl' & Hc' & _)]; [auto|].
        congruence.
Qed.

Lemma Token_panics_only_on_nil_field_witness :
  (Token (State Nil.holder Demo.empty_world)).1 = Panic.
Proof.
  exact (proj1 (Token_panics_only_on_nil_field Nil.holder Demo.empty_world)
           Nil.no_expiry eq_refl eq_refl).
Defined.

(** ** Chains of rotations *)

Lemma add_wrap_l a b : Int64.add (Int64.wrap a) b = Int64.wrap (a + b).
Proof.
  unfold Int64.add, Int64.wrap. f_equal.
  replace ((a + 2 ^ 63) mod 2 ^ 64 - 2 ^ 63 + b + 2 ^ 63)
    with ((a + 2 ^ 63) mod 2 ^ 64 + b) by lia.
  rewrite Z.add_mod_idemp_l by lia. f_equal. lia.
Qed.

Section Chains.
Context `{Transport}.

Lemma rotate_n_S n s :
  rotate_n (S n) s =
  match rotate_n n s with
  | (Ret _, s') => persistNewToken s'
  | r => r
  end.
Proof. reflexivity. Qed.

(** One successful rotation, seen from the generator. *)
Lemma persistNewToken_step c w u s' :
  persistNewToken (State c w) = (Ret u, s') →
  ∃ nc, claims (self s') = Some nc
    ∧ Subject nc = Some (uuids w (drawn w))
    ∧ match claims c with
      | None => SequenceNo nc = Some 0 ∧ Previous nc = Some ""
      | Some old =>
          ∃ seq sub, SequenceNo old = Some seq ∧ Subject old = Some sub
                     ∧ SequenceNo nc = Some (Int64.add seq 1)
                     ∧ Previous nc = Some sub
      end
    ∧ drawn (world s') = S (drawn w) ∧ uuids (world s') = uuids w.
Proof.
  intros E.
  pose proof (persistNewToken_draws c w) as [Hd _].
  pose proof (persistNewToken_framed c w) as (_ & _ & _ & Hu & _).
  rewrite E in Hd, Hu. simpl in Hd, Hu.
  apply persistNewToken_ret in E as (nc & js & Hn & _ & Hc & _).
  apply new_claims_ret in Hn as (_ & _ & Hsub & Hchain).
  exists nc. auto.
Qed.

Lemma rotate_n_chain n : ∀ c w u s',
  claims c = None → rotate_n (S n) (State c w) = (Ret u, s') →
  ∃ nc, claims (self s') = Some nc
    ∧ SequenceNo nc = Some (Int64.wrap (Z.of_nat n))
    ∧ Subject nc = Some (uuids w (drawn w + n)%nat)
    ∧ Previous nc = Some (match n with
                          | O => ""
                          | S k => uuids w (drawn w + k)%nat
                          end)
    ∧ drawn (world s') = (drawn w + S n)%nat ∧ uuids (world s') = uuids w.
Proof.
  induction n as [|n IH]; intros c w u s' Hc E.
  - simpl in E. apply persistNewToken_step in E as (nc & Hcl & Hsub & Hch & Hd & Hu).
    rewrite Hc in Hch. destruct Hch as [Hs Hp].
    exists nc. rewrite Nat.add_0_r. repeat split; auto. lia.
  - rewrite rotate_n_S in E.
    destruct (rotate_n (S n) (State c w)) as [[v|e|] [c1 w1]] eqn:E1; try discriminate.
    destruct (IH c w v (State c1 w1) Hc E1) as (nc1 & Hcl1 & Hs1 & Hsub1 & _ & Hd1 & Hu1).
    simpl in Hcl1, Hd1, Hu1.
    apply persistNewToken_step in E as (nc & Hcl & Hsub & Hch & Hd & Hu).
    rewrite Hcl1 in Hch. destruct Hch as (seq & sub & Hseq & Hsb & Hs & Hp).
    rewrite Hs1 in Hseq. injection Hseq as <-.
    rewrite Hsub1 in Hsb. injection Hsb as <-.
    exists nc. split; [exact Hcl|]. split.
    { rewrite Hs, add_wrap_l. do 2 f_equal. lia. }
    split.
    { rewrite Hsub, Hu1, Hd1. reflexivity. }
    split; [exact Hp|]. split; [lia | congruence].
Qed.
End Chains.

(** X10. A chain of rotations. After [n + 1] rotations in a row that all
    succeed, starting with nothing cached, the cached record has sequence
    number [n] (on int64: exactly [n] up to 2^63 - 1), its subject is the
    identifier drawn last and its previous is the identifier drawn before
    that one (the empty string for the first record);  exactly [n + 1]
    identifiers were drawn.  When the generator never repeats an
    identifier, the subject differs from the previous subject. *)
Theorem chain_of_rotations `{Transport} n c w u s' :
  claims c = None → rotate_n (S n) (State c w) = (Ret u, s') →
  ∃ nc, claims (self s') = Some nc
    ∧ SequenceNo nc = Some (Int64.wrap (Z.of_nat n))
    ∧ (Z.of_nat n <= Int64.max → SequenceNo nc = Some (Z.of_nat n))
    ∧ Subject nc = Some (uuids w (drawn w + n)%nat)
    ∧ Previous nc = Some (match n with
                          | O => ""
                          | S k => uuids w (drawn w + k)%nat
                          end)
    ∧ drawn (world s') = (drawn w + S n)%nat
    ∧ ((∀ i j, uuids w i = uuids w j → i = j) → (0 < n)%nat →
       Subject nc ≠ Previous nc).
Proof.
  intros Hc E.
  destruct (rotate_n_chain n c w u s' Hc E) as (nc & Hcl & Hs & Hsub & Hp & Hd & _).
  exists nc. repeat split; auto.
  - intros Hn. rewrite Hs. f_equal. apply wrap_in_range.
    unfold Int64.in_range, Int64.min in *. lia.
  - intros Hinj Hpos. rewrite Hsub, Hp. destruct n as [|k]; [lia|].
    intros [= Heq]. apply Hinj in Heq. lia.
Qed.

Lemma chain_of_rotations_witness :
  ∃ nc,
    claims (self (rotate_n 3 (State (Demo.fresh 100 (frozen 0)) Demo.empty_world)).2)
    = Some nc
    ∧ SequenceNo nc = Some 2
    ∧ Subject nc = Some "uuid-C" ∧ Previous nc = Some "uuid-B".
Proof.
  destruct (chain_of_rotations 2 (Demo.fresh 100 (frozen 0)) Demo.empty_world tt
              (rotate_n 3 (State (Demo.fresh 100 (frozen 0)) Demo.empty_world)).2
              eq_refl)
    as (nc & Hcl & _ & Hs & Hsub & Hp & _).
  - vm_compute. reflexivity.
  - exists nc. split; [exact Hcl|]. split; [apply Hs; vm_compute; discriminate|].
    split; [exact Hsub | exact Hp].
Defined.

(** ** What a caller gets *)

Section Liveness.
Context `{Transport}.

Lemma last_reading_tick k : last_reading (tick k) = next_reading k.
Proof. reflexivity. Qed.

Lemma rotate_and_return_live c w b s' :
  rotate_and_return (State c w) = (Ret b, s') →
  0 < Z.of_N (refresh c) →
  next_reading (clock c) + Z.of_N (refresh c) <= Int64.max →
  ∃ cl e, claims (self s') = Some cl ∧ ExpiresAt cl = Some e
          ∧ last_reading (clock (self s')) < e.
Proof.
  rewrite rotate_and_return_unfold. intros E Hr Hov.
  pose proof (persistNewToken_draws c w) as [_ Hk].
  destruct (persistNewToken (State c w)) as [[u|e|] s1] eqn:Ep; simpl in *;
    inversion E; subst.
  apply persistNewToken_ret in Ep as (nc & js & Hn & _ & Hc & _).
  apply new_claims_ret in Hn as (_ & He & _).
  rewrite add_of_uint_exact in He by (auto using next_reading_range).
  exists nc, (next_reading (clock c) + Z.of_N (refresh c)).
  rewrite Hk, last_reading_tick. repeat split; auto. lia.
Qed.

Lemma Token_cached_live_after c w cl b s' :
  claims c = Some cl → Token (State c w) = (Ret b, s') →
  0 < Z.of_N (refresh c) →
  next_reading (tick (clock c)) + Z.of_N (refresh c) <= Int64.max →
  ∃ cl' e, claims (self s') = Some cl' ∧ ExpiresAt cl' = Some e
           ∧ last_reading (clock (self s')) < e.
Proof.
  intros Hc. rewrite (Token_cached c w cl Hc).
  destruct (ExpiresAt cl) as [e|] eqn:He; [|discriminate].
  destruct (Z.leb_spec e (next_reading (clock c))).
  - intros E Hr Hov. apply (rotate_and_return_live _ w b s' E); assumption.
  - intros E _ _. inversion E; subst. simpl. exists cl, e.
    rewrite last_reading_tick. auto.
Qed.
End Liveness.

(** X11. A token [Token] returns is not expired at the time it is returned.
    When the refresh interval is positive and no reading of the clock plus
    the interval exceeds 2^63 - 1, a successful [Token] leaves a cached
    record whose expiry is strictly after the last reading of the clock,
    whether the record was cached, loaded from the file or just minted. *)
Theorem returned_token_is_live `{Transport} c w b s' :
  Token (State c w) = (Ret b, s') →
  0 < Z.of_N (refresh c) →
  (∀ n, Int64.wrap (readings (clock c) n) + Z.of_N (refresh c) <= Int64.max) →
  ∃ cl e, claims (self s') = Some cl ∧ ExpiresAt cl = Some e
          ∧ last_reading (clock (self s')) < e.
Proof.
  intros E Hr Hov.
  destruct (claims c) as [cl|] eqn:Hc.
  - apply (Token_cached_live_after c w cl b s' Hc E Hr). apply Hov.
  - rewrite (Token_uncached c w Hc) in E.
    destruct (files w !! file c) as [[data [msg|]|msg]|]; try discriminate.
    + destruct (ParseToken data) as [[token cl]|e|]; try discriminate.
      destruct (Valid token); [|discriminate].
      apply (Token_cached_live_after (set_claims (Some cl) (set_jwt (Some data) c))
               w cl b s' eq_refl E Hr). apply Hov.
    + apply (rotate_and_return_live c w b s' E Hr). apply Hov.
Qed.

Lemma returned_token_is_live_witness :
  ∃ cl e,
    claims (self (Token (State (Demo.cached (frozen 100))
                            (Demo.world_with Demo.tokenA))).2) = Some cl
    ∧ ExpiresAt cl = Some e
    ∧ last_reading (clock (self (Token (State (Demo.cached (frozen 100))
                                          (Demo.world_with Demo.tokenA))).2)) < e.
Proof.
  apply (returned_token_is_live (Demo.cached (frozen 100))
           (Demo.world_with Demo.tokenA) (Some Faults.tokenB)).
  - vm_compute. reflexivity.
  - reflexivity.
  - intros n. vm_compute. discriminate.
Defined.

(** ** The refresh interval 0 *)

Section ZeroRefresh.
Context `{Transport}.

Lemma rotate_and_return_stamp c w b s' :
  rotate_and_return (State c w) = (Ret b, s') →
  ∃ nc, claims (self s') = Some nc
    ∧ IssuedAt nc = Some (last_reading (clock (self s')))
    ∧ ExpiresAt nc = Some (Int64.add (last_reading (clock (self s')))
                             (Int64.of_uint (refresh c))).
Proof.
  rewrite rotate_and_return_unfold. intros E.
  pose proof (persistNewToken_draws c w) as [_ Hk].
  destruct (persistNewToken (State c w)) as [[u|e|] s1] eqn:Ep; simpl in *;
    inversion E; subst.
  apply persistNewToken_ret in Ep as (nc & js & Hn & _ & Hc & _).
  apply new_claims_ret in Hn as (Hi & He & _).
  exists nc. rewrite Hk, last_reading_tick. auto.
Qed.

(** A record [Token] mints is stamped with the last reading of the clock. *)
Lemma Token_minted_stamp c w b s' :
  Token (State c w) = (Ret b, s') → mints w (world s') →
  ∃ nc, claims (self s') = Some nc
    ∧ IssuedAt nc = Some (last_reading (clock (self s')))
    ∧ ExpiresAt nc = Some (Int64.add (last_reading (clock (self s')))
                             (Int64.of_uint (refresh c))).
Proof.
  assert (Hcached : ∀ c0 cl, claims c0 = Some cl → refresh c0 = refresh c →
            Token (State c0 w) = (Ret b, s') → mints w (world s') →
            ∃ nc, claims (self s') = Some nc
              ∧ IssuedAt nc = Some (last_reading (clock (self s')))
              ∧ ExpiresAt nc = Some (Int64.add (last_reading (clock (self s')))
                                       (Int64.of_uint (refresh c)))).
  { intros c0 cl Hc0 Hr. rewrite (Token_cached c0 w cl Hc0).
    destruct (ExpiresAt cl) as [e|]; [|discriminate].
    destruct (e <=? next_reading (clock c0)).
    - intros E _. apply rotate_and_return_stamp in E. simpl in E.
      rewrite Hr in E. exact E.
    - intros E Hm. inversion E; subst. unfold mints in Hm. simpl in Hm. lia. }
  destruct (claims c) as [cl|] eqn:Hc.
  - apply (Hcached c cl Hc eq_refl).
  - rewrite (Token_uncached c w Hc).
    destruct (files w !! file c) as [[data [msg|]|msg]|]; try discriminate.
    + destruct (ParseToken data) as [[token cl]|e|]; try discriminate.
      destruct (Valid token); [|discriminate].
      apply (Hcached (set_claims (Some cl) (set_jwt (Some data) c)) cl eq_refl eq_refl).
    + intros E _. apply (rotate_and_return_stamp c w b s' E).
Qed.
End ZeroRefresh.

(** X12. The refresh interval 0 is accepted and makes every call rotate: a
    record minted by a client with refresh 0 expires at the second it was
    issued, so the next [Token] call mints again as soon as the clock does
    not run backwards, whatever the world is by then. *)
Theorem zero_refresh_rotates_every_call `{Transport} c w b s1 w2 :
  refresh c = 0%N →
  Token (State c w) = (Ret b, s1) → mints w (world s1) →
  last_reading (clock (self s1)) <= next_reading (clock (self s1)) →
  (∃ nc, claims (self s1) = Some nc ∧ ExpiresAt nc = IssuedAt nc)
  ∧ mints w2 (world (Token (State (self s1) w2)).2).
Proof.
  intros Hr E Hm Hmono.
  destruct (Token_minted_stamp c w b s1 E Hm) as (nc & Hc & Hi & He).
  rewrite Hr in He.
  assert (Hz : Int64.add (last_reading (clock (self s1))) (Int64.of_uint 0)
               = last_reading (clock (self s1))).
  { rewrite add_of_uint. simpl. rewrite Z.add_0_r. apply wrap_in_range, wrap_range. }
  rewrite Hz in He. split.
  - exists nc. rewrite Hi, He. auto.
  - rewrite (Token_cached_stale (self s1) w2 nc _ Hc He Hmono).
    apply rotate_and_return_draws.
Qed.

Lemma zero_refresh_rotates_every_call_witness :
  mints Demo.empty_world
    (world (Token (State
              (self (Token (State (Demo.fresh 0 (frozen 0)) Demo.empty_world)).2)
              Demo.empty_world)).2).
Proof.
  assert (E : Token (State (Demo.fresh 0 (frozen 0)) Demo.empty_world)
              = (Ret (jwt (self (Token (State (Demo.fresh 0 (frozen 0))
                                          Demo.empty_world)).2)),
                 (Token (State (Demo.fresh 0 (frozen 0)) Demo.empty_world)).2))
    by (vm_compute; reflexivity).
  refine (proj2 (zero_refresh_rotates_every_call (Demo.fresh 0 (frozen 0))
                   Demo.empty_world _ _ Demo.empty_world eq_refl E _ _)).
  - vm_compute. reflexivity.
  - vm_compute. discriminate.
Defined.
